(** * Maze-Solver: the wall-follower of [main.py]

    A shallow embedding of [src/main.py]: the floor kinds and their
    glyphs, the geometry, the maze with its text codec, the player and
    the manager's navigation loop, followed by the properties of the
    specification checked against that code.

    Conventions.
    - Python [int] is [Z]; a [str] is the list of its code points ([N]),
      so that [str.splitlines] sees every line boundary it knows.
    - [lst[i]] is [Py.index]: negative indices count from the end and
      anything outside [-len, len) raises [IndexError] ([None]).
    - The [history] of the loop is a [gset] of poses.
    - The loop is run with fuel; a separate theorem bounds the fuel that
      is ever needed. *)

From Stdlib Require Import ZArith NArith Ascii String.
From Stdlib Require Import DecimalString DecimalZ DecimalPos.
From stdpp Require Import gmap list sets.

Local Open Scope Z_scope.

(** ** Python strings and sequences *)

Module Py.

(** A [str] as the list of its code points. *)
Abbreviation str := (list N).

Definition of_ascii (c : ascii) : N := N_of_ascii c.

(** A literal, each byte read as the code point of the same number. *)
Definition lit (s : string) : str := of_ascii <$> list_ascii_of_string s.

(** [str(n)] for an [int]: the decimal digits, after a minus sign when
    [n] is negative. *)
Definition str_int (n : Z) : str :=
  lit (NilZero.string_of_int (Z.to_int n)).

(** [lst[i]] *)
Definition index {A} (l : list A) (i : Z) : option A :=
  if decide (0 ≤ i) then l !! Z.to_nat i
  else if decide (- Z.of_nat (length l) ≤ i)
       then l !! Z.to_nat (Z.of_nat (length l) + i)
       else None.

(** The line boundaries of [str.splitlines]: LF, VT, FF, CR, FS, GS, RS,
    NEL, LS and PS. *)
Definition is_linebreak (c : N) : bool :=
  bool_decide (c ∈ [10; 11; 12; 13; 28; 29; 30; 133; 8232; 8233]%N).

(** [s.splitlines()], with [cur] the reversed line being read.  A CR
    directly followed by LF is one boundary; a line is emitted at each
    boundary, and at the end of the text when characters are pending. *)
Fixpoint splitlines_from (cur : str) (s : str) : list str :=
  match s with
  | [] => match cur with [] => [] | _ => [rev cur] end
  | c :: rest =>
      if is_linebreak c then
        rev cur ::
          match rest with
          | c' :: rest' =>
              if bool_decide (c = 13%N) && bool_decide (c' = 10%N)
              then splitlines_from [] rest'
              else splitlines_from [] rest
          | [] => splitlines_from [] rest
          end
      else splitlines_from (c :: cur) rest
  end.

Definition splitlines (s : str) : list str := splitlines_from [] s.

(** [sep.join(lines)] *)
Fixpoint join (sep : str) (lines : list str) : str :=
  match lines with
  | [] => []
  | [l] => l
  | l :: ls => l ++ sep ++ join sep ls
  end.

(** [c in s] for a one-character [c] *)
Definition contains (c : N) (s : str) : bool := bool_decide (c ∈ s).

End Py.

(** ** Floor kinds *)

Inductive EFloor := Normal | Wall | Start | Goal.

#[global] Instance EFloor_eq_dec : EqDecision EFloor.
Proof. solve_decision. Defined.

Module EFloor.

Definition to_char (self : EFloor) : N :=
  match self with
  | Normal => Py.of_ascii " "
  | Wall => Py.of_ascii "*"
  | Start => Py.of_ascii "o"
  | Goal => Py.of_ascii "x"
  end.

(** The text of the [ValueError] raised by [EFloor.of]. *)
Definition invalid_character (c : N) : Py.str :=
  Py.lit "Invalid character: '" ++ [c] ++ Py.lit "'".

(** [EFloor.of]; [inr msg] is [raise ValueError(msg)]. *)
Definition of_ (c : N) : EFloor + Py.str :=
  if bool_decide (c = Py.of_ascii " ") then inl Normal
  else if bool_decide (c = Py.of_ascii "*") then inl Wall
  else if bool_decide (c = Py.of_ascii "o") then inl Start
  else if bool_decide (c = Py.of_ascii "x") then inl Goal
  else inr (invalid_character c).

End EFloor.

(** ** Geometry *)

Record Vector2D := mkVector2D { vx : Z; vy : Z }.
Record Point2D := mkPoint2D { x : Z; y : Z }.

#[global] Instance Vector2D_eq_dec : EqDecision Vector2D.
Proof. solve_decision. Defined.
#[global] Instance Point2D_eq_dec : EqDecision Point2D.
Proof. solve_decision. Defined.

#[global] Instance Point2D_countable : Countable Point2D.
Proof.
  refine (inj_countable' (λ p, (x p, y p)) (λ t, mkPoint2D t.1 t.2) _).
  by intros [].
Defined.

(** [Point2D.__add__] *)
Definition point_add (self : Point2D) (other : Vector2D) : Point2D :=
  mkPoint2D (x self + vx other) (y self + vy other).

Infix "+p" := point_add (at level 50, left associativity).

Module Point2D.

(** [Point2D.__str__]: the text [(x, y)]. *)
Definition __str__ (self : Point2D) : Py.str :=
  Py.lit "(" ++ Py.str_int (x self) ++ Py.lit ", " ++ Py.str_int (y self)
  ++ Py.lit ")".

End Point2D.

(** ** Orientations *)

Inductive EOrientation := North | West | South | East.

#[global] Instance EOrientation_eq_dec : EqDecision EOrientation.
Proof. solve_decision. Defined.

#[global] Instance EOrientation_countable : Countable EOrientation.
Proof.
  refine (inj_countable'
    (λ o, match o with North => 0 | West => 1 | South => 2 | East => 3 end%nat)
    (λ n, match n with 0 => North | 1 => West | 2 => South | _ => East end%nat) _).
  by intros [].
Defined.

Module EOrientation.

Definition value (self : EOrientation) : Vector2D :=
  match self with
  | North => mkVector2D (-1) 0
  | West => mkVector2D 0 (-1)
  | South => mkVector2D 1 0
  | East => mkVector2D 0 1
  end.

Definition turn_to_the_right (self : EOrientation) : EOrientation :=
  match self with
  | North => East | West => North | South => West | East => South
  end.

Definition turn_to_the_left (self : EOrientation) : EOrientation :=
  match self with
  | North => West | West => South | South => East | East => North
  end.

Definition turn_around (self : EOrientation) : EOrientation :=
  match self with
  | North => South | West => East | South => North | East => West
  end.

(** [EOrientation.__str__]: the name of the member, in lower case. *)
Definition __str__ (self : EOrientation) : Py.str :=
  match self with
  | North => Py.lit "north"
  | West => Py.lit "west"
  | South => Py.lit "south"
  | East => Py.lit "east"
  end.

End EOrientation.

(** ** The maze and its text codec *)

Record Maze := mkMaze {
  floor : list (list EFloor);
  start : Point2D;
  goal : Point2D
}.

(** How [Maze.parse] can fail: [_validate] prints a line and calls
    [sys.exit(1)]; [EFloor.of] raises [ValueError]; [_find_xy] indexes
    lists. *)
Inductive ParseError :=
| SystemExit (printed : Py.str) (code : Z)
| ValueError (msg : Py.str)
| IndexError.

(** A list comprehension whose body may raise: the first failure, in the
    order of evaluation, is the one that propagates. *)
Fixpoint comprehension {A B E} (f : A → B + E) (l : list A) : list B + E :=
  match l with
  | [] => inl []
  | a :: l' =>
      match f a with
      | inr e => inr e
      | inl b =>
          match comprehension f l' with
          | inr e => inr e
          | inl bs => inl (b :: bs)
          end
      end
  end.

Module Maze.

(** [os.linesep] is a parameter of the rendering. *)
Definition to_string (linesep : Py.str) (self : Maze) : Py.str :=
  let chars_2d := (λ row : list EFloor, EFloor.to_char <$> row) <$> floor self in
  Py.join linesep chars_2d.

Definition cannot_find_start : Py.str :=
  Py.lit "Error: Cannot find the beginning position. Abort program.".
Definition cannot_find_goal : Py.str :=
  Py.lit "Error: Cannot find the exit position. Abort program.".

(** [inl tt] when both markers occur in the text. *)
Definition _validate (s : Py.str) : unit + ParseError :=
  let has_start := Py.contains (EFloor.to_char Start) s in
  if negb has_start then inr (SystemExit cannot_find_start 1)
  else
    let has_goal := Py.contains (EFloor.to_char Goal) s in
    if negb has_goal then inr (SystemExit cannot_find_goal 1)
    else inl tt.

(** The row indices [i] with [kind in row], in order. *)
Definition rows_holding (kind : EFloor) (floor_map_2d : list (list EFloor))
  : list nat :=
  fst <$> filter (λ ir, kind ∈ ir.2) (imap pair floor_map_2d).

(** [row.index(kind)] *)
Definition list_index (kind : EFloor) (row : list EFloor) : option nat :=
  fst <$> list_find (λ f, f = kind) row.

Definition _find_xy (kind : EFloor) (floor_map_2d : list (list EFloor))
  : option Point2D :=
  x ← head (rows_holding kind floor_map_2d);
  row ← Py.index floor_map_2d (Z.of_nat x);
  y ← list_index kind row;
  Some (mkPoint2D (Z.of_nat x) (Z.of_nat y)).

Definition parse (s : Py.str) : Maze + ParseError :=
  match _validate s with
  | inr e => inr e
  | inl _ =>
      let lines := Py.splitlines s in
      match comprehension (comprehension EFloor.of_) lines with
      | inr msg => inr (ValueError msg)
      | inl floors =>
          match _find_xy Start floors with
          | None => inr IndexError
          | Some start_at =>
              match _find_xy Goal floors with
              | None => inr IndexError
              | Some goal_at => inl (mkMaze floors start_at goal_at)
              end
          end
      end
  end.

End Maze.

(** ** The player *)

Record Pose := mkPose {
  pose_position : Point2D;
  pose_orientation : EOrientation
}.

#[global] Instance Pose_eq_dec : EqDecision Pose.
Proof. solve_decision. Defined.

#[global] Instance Pose_countable : Countable Pose.
Proof.
  refine (inj_countable' (λ p, (pose_position p, pose_orientation p))
                         (λ t, mkPose t.1 t.2) _).
  by intros [].
Defined.

Record Player := mkPlayer {
  position : Point2D;
  orientation : EOrientation
}.

Module Player.

Definition is_located_at (self : Player) (pos : Point2D) : bool :=
  bool_decide (position self = pos).

Definition turn_to_the_right (self : Player) : Player :=
  mkPlayer (position self) (EOrientation.turn_to_the_right (orientation self)).

Definition keep_orientation (self : Player) : Player := self.

Definition turn_to_the_left (self : Player) : Player :=
  mkPlayer (position self) (EOrientation.turn_to_the_left (orientation self)).

Definition turn_around (self : Player) : Player :=
  mkPlayer (position self) (EOrientation.turn_around (orientation self)).

Definition step_forward (self : Player) : Player :=
  mkPlayer (position self +p EOrientation.value (orientation self))
           (orientation self).

Definition to_Pose (self : Player) : Pose :=
  mkPose (position self) (orientation self).

End Player.

(** ** The manager and its navigation loop *)

(** One printed line [At (x, y) facing o] of [player_step_forward]. *)
Abbreviation Event := (Point2D * EOrientation)%type.

(** The manager: the maze it reads, the player it moves, and the
    [At ...] lines printed so far. *)
Record MazeManager := mkMazeManager {
  maze : Maze;
  player : Player;
  printed : list Event
}.

(** How [process_players_trial] ends: it prints [Exit at ...] or
    [There is no solution for this maze.], or a lookup in the floor
    raises [IndexError]; [OutOfFuel] belongs to the model only. *)
Inductive Outcome :=
| Solved (path : list Event) (exit_at : Point2D)
| Unsolvable (path : list Event)
| Raised (path : list Event)
| OutOfFuel.

Module MazeManager.

Definition with_player (self : MazeManager) (p : Player) : MazeManager :=
  mkMazeManager (maze self) p (printed self).

Definition is_player_located_at_goal (self : MazeManager) : bool :=
  Player.is_located_at (player self) (goal (maze self)).

(** [self.maze.floor[pos.x][pos.y] != EFloor.Wall]; [None] is
    [IndexError]. *)
Definition _player_can_go (self : MazeManager) (pos : Point2D) : option bool :=
  row ← Py.index (floor (maze self)) (x pos);
  cell ← Py.index row (y pos);
  Some (bool_decide (cell ≠ Wall)).

Definition player_can_go_right (self : MazeManager) : option bool :=
  let new_orientation :=
    EOrientation.turn_to_the_right (orientation (player self)) in
  let next_pos := position (player self) +p EOrientation.value new_orientation in
  _player_can_go self next_pos.

Definition player_turn_to_the_right (self : MazeManager) : MazeManager :=
  with_player self (Player.turn_to_the_right (player self)).

Definition player_can_go_forward (self : MazeManager) : option bool :=
  let next_pos :=
    position (player self) +p EOrientation.value (orientation (player self)) in
  _player_can_go self next_pos.

Definition player_keep_orientation (self : MazeManager) : MazeManager :=
  with_player self (Player.keep_orientation (player self)).

(** Prints the position it leaves and the orientation it faces, then
    steps. *)
Definition player_step_forward (self : MazeManager) : MazeManager :=
  mkMazeManager (maze self) (Player.step_forward (player self))
    (printed self ++ [(position (player self), orientation (player self))]).

Definition player_can_go_left (self : MazeManager) : option bool :=
  let new_orientation :=
    EOrientation.turn_to_the_left (orientation (player self)) in
  let next_pos := position (player self) +p EOrientation.value new_orientation in
  _player_can_go self next_pos.

Definition player_turn_to_the_left (self : MazeManager) : MazeManager :=
  with_player self (Player.turn_to_the_left (player self)).

Definition player_can_go_backward (self : MazeManager) : option bool :=
  let new_orientation :=
    EOrientation.turn_around (orientation (player self)) in
  let next_pos := position (player self) +p EOrientation.value new_orientation in
  _player_can_go self next_pos.

Definition player_turn_around (self : MazeManager) : MazeManager :=
  with_player self (Player.turn_around (player self)).

(** The [if/elif/else] chain of the loop body: each test is evaluated
    only when the ones before it were false. *)
Definition choose_and_step (self : MazeManager) : option MazeManager :=
  right ← player_can_go_right self;
  if right : bool then
    Some (player_step_forward (player_turn_to_the_right self))
  else
    forward ← player_can_go_forward self;
    if forward : bool then
      Some (player_step_forward (player_keep_orientation self))
    else
      left ← player_can_go_left self;
      if left : bool then
        Some (player_step_forward (player_turn_to_the_left self))
      else
        Some (player_step_forward (player_turn_around self)).

(** The [while] loop with its [history], and the final report. *)
Fixpoint trial_loop (fuel : nat) (history : gset Pose) (self : MazeManager)
  : Outcome :=
  match fuel with
  | O => OutOfFuel
  | S fuel' =>
      if is_player_located_at_goal self
      then Solved (printed self) (position (player self))
      else if decide (Player.to_Pose (player self) ∈ history)
      then Unsolvable (printed self)
      else
        let history' := history ∪ {[Player.to_Pose (player self)]} in
        match choose_and_step self with
        | None => Raised (printed self)
        | Some self' => trial_loop fuel' history' self'
        end
  end.

Definition process_players_trial (fuel : nat) (self : MazeManager) : Outcome :=
  trial_loop fuel ∅ self.

End MazeManager.

(** [MazeManager(maze, player)] *)
Definition new_manager (m : Maze) (p : Player) : MazeManager :=
  mkMazeManager m p [].

(** The transitions an outcome reports. *)
Definition path_of (o : Outcome) : list Event :=
  match o with
  | Solved path _ | Unsolvable path | Raised path => path
  | OutOfFuel => []
  end.

(** The pose a printed transition leads to: one step from the position
    printed, along the orientation printed. *)
Definition pose_after (e : Event) : Pose :=
  mkPose (e.1 +p EOrientation.value e.2) e.2.

(** The lines [process_players_trial] and [player_step_forward] write
    on the standard output. *)
Definition current_position_line (pos : Point2D) : Py.str :=
  Py.lit "Current position: " ++ Point2D.__str__ pos.

Definition step_line (e : Event) : Py.str :=
  Py.lit "At " ++ Point2D.__str__ e.1 ++ Py.lit " facing "
  ++ EOrientation.__str__ e.2.

Definition exit_line (pos : Point2D) : Py.str :=
  Py.lit "Exit at " ++ Point2D.__str__ pos.

Definition no_solution_line : Py.str :=
  Py.lit "There is no solution for this maze.".

(** The standard output of a trial of a player that starts at
    [start_at], from the outcome of the trial: the line of the start,
    the line of each transition, and the report of a trial that ends by
    one. *)
Definition stdout (start_at : Point2D) (o : Outcome) : list Py.str :=
  current_position_line start_at
  :: (step_line <$> path_of o)
  ++ match o with
     | Solved _ exit_at => [exit_line exit_at]
     | Unsolvable _ => [no_solution_line]
     | Raised _ | OutOfFuel => []
     end.

(** The script, for a text [text] in place of [maze3]: parse the text,
    print the maze, and run the trial of a player on the start facing
    north.  The result is the standard output, print by print, with the
    outcome of the trial. *)
Definition main (linesep : Py.str) (fuel : nat) (text : Py.str)
  : (list Py.str * Outcome) + ParseError :=
  match Maze.parse text with
  | inr e => inr e
  | inl maze =>
      let manager := new_manager maze (mkPlayer (start maze) North) in
      let o := MazeManager.process_players_trial fuel manager in
      inl (Maze.to_string linesep maze :: stdout (start maze) o, o)
  end.

(** ** Auxiliary definitions of the properties *)

(** The cell a candidate orientation leads to, and the manager after the
    candidate is applied: turn, print, step. *)
Definition prospect (self : MazeManager) (o : EOrientation) : Point2D :=
  position (player self) +p EOrientation.value o.

Definition applied (self : MazeManager) (o : EOrientation) : MazeManager :=
  mkMazeManager (maze self) (mkPlayer (prospect self o) o)
    (printed self ++ [(position (player self), o)]).

(** [self.maze.floor[pos.x][pos.y]], the lookup inside
    [_player_can_go]. *)
Definition floor_at (m : Maze) (pos : Point2D) : option EFloor :=
  row ← Py.index (floor m) (x pos); Py.index row (y pos).

(** ** Trajectories

    The states of the manager at the head of the loop, iteration after
    iteration, with the loop tests left out: the loop follows this
    trajectory until one of its tests stops it. *)

Section Trajectory.

Variable s0 : MazeManager.

(** The manager at the head of iteration [n]; [None] once a lookup has
    raised. *)
Fixpoint after (n : nat) : option MazeManager :=
  match n with
  | O => Some s0
  | S n' => s ← after n'; MazeManager.choose_and_step s
  end.

Definition pose_at (n : nat) : option Pose :=
  (λ s, Player.to_Pose (player s)) <$> after n.

(** The poses recorded by the iterations before [n]. *)
Fixpoint visited (n : nat) : gset Pose :=
  match n with
  | O => ∅
  | S n' =>
      match pose_at n' with
      | Some p => visited n' ∪ {[p]}
      | None => visited n'
      end
  end.

(** What the loop does when it reaches the head of iteration [n]: stop
    with an outcome, or go on ([None]). *)
Definition verdict_at (n : nat) : option Outcome :=
  match after n with
  | None => None
  | Some s =>
      if MazeManager.is_player_located_at_goal s
      then Some (Solved (printed s) (position (player s)))
      else if decide (Player.to_Pose (player s) ∈ visited n)
      then Some (Unsolvable (printed s))
      else match MazeManager.choose_and_step s with
           | None => Some (Raised (printed s))
           | Some _ => None
           end
  end.

(** The first verdict from iteration [n] on, looking at [fuel] of them. *)
Fixpoint first_verdict (fuel n : nat) : Outcome :=
  match fuel with
  | O => OutOfFuel
  | S fuel' =>
      match verdict_at n with
      | Some o => o
      | None => first_verdict fuel' (S n)
      end
  end.

End Trajectory.

(** The two values of [os.linesep]. *)
Definition LF : Py.str := [10%N].
Definition CRLF : Py.str := [13%N; 10%N].

(** What is left to read after a line boundary [c]: a LF right after a
    CR belongs to the boundary. *)
Definition after_break (c : N) (rest : Py.str) : Py.str :=
  match rest with
  | c' :: rest' =>
      if bool_decide (c = 13%N) && bool_decide (c' = 10%N) then rest' else rest
  | [] => rest
  end.

(** Enumerations for counting poses. *)
Definition orientations : list EOrientation := [North; West; South; East].

(** The poses over the positions of a rectangle: rows [x0 .. x0 + nx),
    columns [y0 .. y0 + ny). *)
Definition poses_in (x0 nx y0 ny : Z) : list Pose :=
  (λ t : Z * Z * EOrientation, mkPose (mkPoint2D t.1.1 t.1.2) t.2)
    <$> cprod (cprod (seqZ x0 nx) (seqZ y0 ny)) orientations.

(** A position that is a cell of a grid of [R] rows and [C] columns. *)
Definition in_grid (R C : nat) (pos : Point2D) : Prop :=
  0 ≤ x pos < Z.of_nat R ∧ 0 ≤ y pos < Z.of_nat C.

(** A position whose cell is not a wall. *)
Definition open_at (m : Maze) (pos : Point2D) : Prop :=
  ∃ cell, floor_at m pos = Some cell ∧ cell ≠ Wall.

(** A grid of [R] rows of [C] columns each, with walls all along its
    border. *)
Definition enclosed (m : Maze) (R C : nat) : Prop :=
  length (floor m) = R
  ∧ Forall (λ row, length row = C) (floor m)
  ∧ ∀ pos, in_grid R C pos →
      x pos = 0 ∨ x pos = Z.of_nat R - 1
      ∨ y pos = 0 ∨ y pos = Z.of_nat C - 1 →
      floor_at m pos = Some Wall.

(** The cells of the grid that are not on its border. *)
Definition inside (R C : nat) (pos : Point2D) : Prop :=
  1 ≤ x pos ≤ Z.of_nat R - 2 ∧ 1 ≤ y pos ≤ Z.of_nat C - 2.

(** The player stands inside the grid on a cell that is not a wall, and
    one of the four cells around it is not a wall either. *)
Definition can_move (m : Maze) (R C : nat) (p : Player) : Prop :=
  inside R C (position p)
  ∧ open_at m (position p)
  ∧ ∃ o, open_at m (position p +p EOrientation.value o).

(** ** Example mazes *)

Module Demo.

(** The three mazes of the script. *)
Definition maze1 : Py.str := Py.lit
"*******
*o    *
* x****
*     *
*******".

Definition maze2 : Py.str := Py.lit
"*******
*     *
* *** *
*o*x* *
* *** *
*     *
*******".

Definition maze3 : Py.str := Py.lit
"*****
** **
*   *
**o**
**x**
*****".

Definition maze3_maze : Maze :=
  mkMaze
    [ [Wall; Wall; Wall; Wall; Wall];
      [Wall; Wall; Normal; Wall; Wall];
      [Wall; Normal; Normal; Normal; Wall];
      [Wall; Wall; Start; Wall; Wall];
      [Wall; Wall; Goal; Wall; Wall];
      [Wall; Wall; Wall; Wall; Wall] ]
    (mkPoint2D 3 2) (mkPoint2D 4 2).

(** A start with a wall on each of its four sides. *)
Definition walled_in : Py.str := Py.lit
"*****
**o**
*****
*x***".

Definition walled_in_maze : Maze :=
  mkMaze
    [ [Wall; Wall; Wall; Wall; Wall];
      [Wall; Wall; Start; Wall; Wall];
      [Wall; Wall; Wall; Wall; Wall];
      [Wall; Goal; Wall; Wall; Wall] ]
    (mkPoint2D 1 2) (mkPoint2D 3 1).

(** A column that is open from the first row to the last. *)
Definition open_column : Py.str := Py.lit
" *
o*
 *x".

Definition open_column_maze : Maze :=
  mkMaze [ [Normal; Wall]; [Start; Wall]; [Normal; Wall; Goal] ]
    (mkPoint2D 1 0) (mkPoint2D 2 2).

(** Nine rows of at most nine columns, scattered walls, and no wall at
    the ends of most rows. *)
Definition long_walk : Py.str := Py.join LF
  [ Py.lit " ** ****";
    Py.lit "*  **   *";
    Py.lit "  *  * * ";
    Py.lit " *  *   *";
    Py.lit "  *  * * ";
    Py.lit " *  *   *";
    Py.lit "  *  * * ";
    Py.lit " * *   *";
    Py.lit "     o* x" ].

(** The trial of a parsed text, the player on the start. *)
Definition trial (fuel : nat) (text : Py.str) (facing : EOrientation)
  : option Outcome :=
  match Maze.parse text with
  | inl m =>
      Some (MazeManager.process_players_trial fuel
              (new_manager m (mkPlayer (start m) facing)))
  | inr _ => None
  end.

End Demo.

(** * Properties *)

(** ** The player's mutators *)

(** C9.  The three turns and [keep_orientation] leave the position of the
    player where it is and change the orientation by the transform of the
    same name (not at all for [keep_orientation]); [step_forward] leaves
    the orientation as it is and adds its unit vector to the position. *)
Theorem player_mutators_frame (p : Player) :
  (position (Player.turn_to_the_right p) = position p
   ∧ orientation (Player.turn_to_the_right p)
     = EOrientation.turn_to_the_right (orientation p))
  ∧ (position (Player.turn_to_the_left p) = position p
     ∧ orientation (Player.turn_to_the_left p)
       = EOrientation.turn_to_the_left (orientation p))
  ∧ (position (Player.turn_around p) = position p
     ∧ orientation (Player.turn_around p)
       = EOrientation.turn_around (orientation p))
  ∧ Player.keep_orientation p = p
  ∧ (orientation (Player.step_forward p) = orientation p
     ∧ position (Player.step_forward p)
       = position p +p EOrientation.value (orientation p)).
Proof. by destruct p. Qed.

(** ** One iteration of the loop *)

Section Decision.

Variable self : MazeManager.

Let here := orientation (player self).
Let can_go o := MazeManager._player_can_go self (prospect self o).

Local Ltac run_chain :=
  unfold MazeManager.choose_and_step, MazeManager.player_can_go_right,
    MazeManager.player_can_go_forward, MazeManager.player_can_go_left;
  intros;
  repeat match goal with
    | H : can_go _ = _ |- _ =>
        unfold can_go, prospect, here in H; rewrite H; clear H
    end;
  simpl.

Lemma choose_right :
  can_go (EOrientation.turn_to_the_right here) = Some true →
  MazeManager.choose_and_step self
  = Some (applied self (EOrientation.turn_to_the_right here)).
Proof. by run_chain. Qed.

Lemma choose_forward :
  can_go (EOrientation.turn_to_the_right here) = Some false →
  can_go here = Some true →
  MazeManager.choose_and_step self = Some (applied self here).
Proof.
  run_chain. unfold applied, prospect, here. by destruct self as [? []].
Qed.

Lemma choose_left :
  can_go (EOrientation.turn_to_the_right here) = Some false →
  can_go here = Some false →
  can_go (EOrientation.turn_to_the_left here) = Some true →
  MazeManager.choose_and_step self
  = Some (applied self (EOrientation.turn_to_the_left here)).
Proof. by run_chain. Qed.

Lemma choose_about_face :
  can_go (EOrientation.turn_to_the_right here) = Some false →
  can_go here = Some false →
  can_go (EOrientation.turn_to_the_left here) = Some false →
  MazeManager.choose_and_step self
  = Some (applied self (EOrientation.turn_around here)).
Proof. by run_chain. Qed.

(** A test that raises ends the iteration: nothing after it is tried. *)
Lemma choose_raises :
  can_go (EOrientation.turn_to_the_right here) = None
  ∨ can_go (EOrientation.turn_to_the_right here) = Some false
    ∧ (can_go here = None
       ∨ can_go here = Some false
         ∧ can_go (EOrientation.turn_to_the_left here) = None) →
  MazeManager.choose_and_step self = None.
Proof. intros [?|[? [?|[? ?]]]]; by run_chain. Qed.

(** Whatever is chosen is one of the four candidates, applied. *)
Lemma choose_and_step_applied self' :
  MazeManager.choose_and_step self = Some self' →
  ∃ o, self' = applied self o
       ∧ (o = EOrientation.turn_to_the_right here ∧ can_go o = Some true
          ∨ o = here ∧ can_go o = Some true
            ∧ can_go (EOrientation.turn_to_the_right here) = Some false
          ∨ o = EOrientation.turn_to_the_left here ∧ can_go o = Some true
            ∧ can_go (EOrientation.turn_to_the_right here) = Some false
            ∧ can_go here = Some false
          ∨ o = EOrientation.turn_around here
            ∧ can_go (EOrientation.turn_to_the_right here) = Some false
            ∧ can_go here = Some false
            ∧ can_go (EOrientation.turn_to_the_left here) = Some false).
Proof.
  intros H.
  destruct (can_go (EOrientation.turn_to_the_right here)) as [[]|] eqn:Hr.
  - rewrite choose_right in H by done. naive_solver.
  - destruct (can_go here) as [[]|] eqn:Hf.
    + rewrite choose_forward in H by done. naive_solver.
    + destruct (can_go (EOrientation.turn_to_the_left here)) as [[]|] eqn:Hl.
      * rewrite choose_left in H by done. naive_solver.
      * rewrite choose_about_face in H by done. naive_solver.
      * rewrite choose_raises in H by auto. done.
    + rewrite choose_raises in H by auto. done.
  - rewrite choose_raises in H by auto. done.
Qed.

End Decision.

(** ** Facts about trajectories *)

Section TrajectoryFacts.

Variable s0 : MazeManager.

Lemma after_None_later n k : after s0 n = None → after s0 (n + k) = None.
Proof.
  intros H. induction k as [|k IH].
  - by rewrite Nat.add_0_r.
  - rewrite Nat.add_succ_r. simpl. by rewrite IH.
Qed.

Lemma after_Some_earlier n k s :
  after s0 n = Some s → (k ≤ n)%nat → is_Some (after s0 k).
Proof.
  intros H Hk. destruct (after s0 k) eqn:E; [eauto|].
  apply (after_None_later k (n - k)) in E.
  replace (k + (n - k))%nat with n in E by lia. congruence.
Qed.

Lemma elem_of_visited p n :
  p ∈ visited s0 n ↔ ∃ i, (i < n)%nat ∧ pose_at s0 i = Some p.
Proof.
  induction n as [|n IH]; simpl.
  - split; [set_solver|]. intros (i & ? & _). lia.
  - destruct (pose_at s0 n) as [q|] eqn:E.
    + rewrite elem_of_union, elem_of_singleton, IH. split.
      * intros [(i & ? & ?)| ->]; [exists i | exists n]; split; auto; lia.
      * intros (i & Hi & Hp). destruct (decide (i = n)) as [->|].
        -- right. congruence.
        -- left. exists i. split; [lia|done].
    + rewrite IH. split.
      * intros (i & ? & ?). exists i. split; [lia|done].
      * intros (i & Hi & Hp). destruct (decide (i = n)) as [->|].
        -- congruence.
        -- exists i. split; [lia|done].
Qed.

(** The loop, entered at iteration [n] of the trajectory with the
    history of the iterations before it, returns the first verdict. *)
Lemma trial_loop_first_verdict fuel : ∀ n s,
  after s0 n = Some s →
  MazeManager.trial_loop fuel (visited s0 n) s = first_verdict s0 fuel n.
Proof.
  induction fuel as [|fuel IH]; intros n s Hs; [done|].
  simpl. unfold verdict_at. rewrite Hs.
  destruct (MazeManager.is_player_located_at_goal s); [done|].
  destruct (decide (Player.to_Pose (player s) ∈ visited s0 n)); [done|].
  destruct (MazeManager.choose_and_step s) as [s'|] eqn:Hstep; [|done].
  rewrite <- (IH (S n) s').
  - simpl. unfold pose_at. by rewrite Hs.
  - simpl. by rewrite Hs.
Qed.

Lemma process_players_trial_first_verdict fuel :
  MazeManager.process_players_trial fuel s0 = first_verdict s0 fuel 0.
Proof. by apply (trial_loop_first_verdict fuel 0 s0). Qed.

(** A run that ends stops at the first iteration that has a verdict. *)
Lemma first_verdict_stops fuel : ∀ n o,
  first_verdict s0 fuel n = o → o ≠ OutOfFuel →
  ∃ k, (k < fuel)%nat ∧ verdict_at s0 (n + k) = Some o
       ∧ ∀ j, (j < k)%nat → verdict_at s0 (n + j) = None.
Proof.
  induction fuel as [|fuel IH]; intros n o H Hne; simpl in H; [congruence|].
  destruct (verdict_at s0 n) as [o'|] eqn:E.
  - subst o'. exists 0%nat. rewrite Nat.add_0_r.
    split; [lia|]. split; [done|]. intros; lia.
  - destruct (IH (S n) o H Hne) as (k & Hk & Hv & Hbefore).
    exists (S k). rewrite Nat.add_succ_r. split; [lia|]. split; [done|].
    intros [|j] Hj.
    + by rewrite Nat.add_0_r.
    + rewrite Nat.add_succ_r. apply Hbefore. lia.
Qed.

Lemma first_verdict_reaches k : ∀ fuel n o,
  verdict_at s0 (n + k) = Some o →
  (∀ j, (j < k)%nat → verdict_at s0 (n + j) = None) →
  (k < fuel)%nat →
  first_verdict s0 fuel n = o.
Proof.
  induction k as [|k IH]; intros [|fuel] n o Hv Hbefore Hk; try lia; simpl.
  - rewrite Nat.add_0_r in Hv. by rewrite Hv.
  - rewrite <- (Nat.add_0_r n) at 1. rewrite (Hbefore 0%nat) by lia.
    apply IH; [by rewrite Nat.add_succ_l, <- Nat.add_succ_r| |lia].
    intros j Hj. rewrite Nat.add_succ_l, <- Nat.add_succ_r. apply Hbefore. lia.
Qed.

End TrajectoryFacts.

(** The manager keeps its maze, and each iteration prints one line. *)
Lemma choose_and_step_maze s s' :
  MazeManager.choose_and_step s = Some s' → maze s' = maze s.
Proof. intros H. by destruct (choose_and_step_applied s s' H) as (o & -> & _). Qed.

Lemma after_maze s0 n s : after s0 n = Some s → maze s = maze s0.
Proof.
  revert s. induction n as [|n IH]; intros s H; simpl in H; [congruence|].
  destruct (after s0 n) as [s1|]; [|done]. simpl in H.
  rewrite (choose_and_step_maze _ _ H). by apply IH.
Qed.

Lemma least_or_none (P : nat → Prop) `{∀ n, Decision (P n)} (j : nat) :
  (∃ n, (n < j)%nat ∧ P n ∧ ∀ i, (i < n)%nat → ¬ P i)
  ∨ ∀ i, (i < j)%nat → ¬ P i.
Proof.
  induction j as [|j [(n & ? & ? & ?)|Hnone]].
  - right. intros; lia.
  - left. exists n. split; [lia|done].
  - destruct (decide (P j)) as [Hj|Hj].
    + left. exists j. split; [lia|done].
    + right. intros i Hi. destruct (decide (i = j)) as [->|]; [done|].
      apply Hnone. lia.
Qed.

Lemma least_below (P : nat → Prop) `{∀ n, Decision (P n)} (j : nat) :
  P j → ∃ n, (n ≤ j)%nat ∧ P n ∧ ∀ i, (i < n)%nat → ¬ P i.
Proof.
  intros Hj. destruct (least_or_none P (S j)) as [(n & ? & ? & ?)|Hnone].
  - exists n. split; [lia|done].
  - destruct (Hnone j); [lia|done].
Qed.

(** ** Goal first *)

(** C5.  When the player starts on the goal of the maze, whatever its
    orientation, the trial ends at once as solved, with no line printed
    and no transition made; the test for the goal comes before the one
    for a repeated pose, so this holds for any history, also one that
    holds the pose of the player. *)
Theorem goal_at_start_is_solved
  (m : Maze) (p : Player) (fuel : nat) (history : gset Pose) :
  position p = goal m →
  MazeManager.process_players_trial (S fuel) (new_manager m p)
  = Solved [] (goal m)
  ∧ MazeManager.trial_loop (S fuel) (history ∪ {[Player.to_Pose p]})
      (new_manager m p)
    = Solved [] (goal m).
Proof.
  intros H. unfold MazeManager.process_players_trial. simpl.
  unfold MazeManager.is_player_located_at_goal, Player.is_located_at. simpl.
  rewrite bool_decide_eq_true_2 by done. by rewrite H.
Qed.

Lemma goal_at_start_is_solved_witness :
  MazeManager.process_players_trial 1
    (new_manager Demo.maze3_maze (mkPlayer (mkPoint2D 4 2) West))
  = Solved [] (mkPoint2D 4 2).
Proof.
  apply (goal_at_start_is_solved Demo.maze3_maze
           (mkPlayer (mkPoint2D 4 2) West) 0 ∅).
  reflexivity.
Defined.

(** ** The order of the candidates *)



(** ** Unsolvable exactly on a repeated pose *)

Section Verdicts.

Variable s0 : MazeManager.

Lemma verdict_at_None_inv n s :
  after s0 n = Some s → verdict_at s0 n = None →
  MazeManager.is_player_located_at_goal s = false
  ∧ (Player.to_Pose (player s) ∉ visited s0 n)
  ∧ is_Some (MazeManager.choose_and_step s).
Proof.
  unfold verdict_at. intros ->.
  destruct (MazeManager.is_player_located_at_goal s); [done|].
  destruct (decide (Player.to_Pose (player s) ∈ visited s0 n)); [done|].
  destruct (MazeManager.choose_and_step s); [eauto|done].
Qed.

Lemma verdict_at_Unsolvable_inv n path :
  verdict_at s0 n = Some (Unsolvable path) →
  ∃ s, after s0 n = Some s ∧ path = printed s
       ∧ MazeManager.is_player_located_at_goal s = false
       ∧ Player.to_Pose (player s) ∈ visited s0 n.
Proof.
  unfold verdict_at. destruct (after s0 n) as [s|]; [|done].
  destruct (MazeManager.is_player_located_at_goal s) eqn:Hgoal; [done|].
  destruct (decide (Player.to_Pose (player s) ∈ visited s0 n)).
  - intros [= <-]. eauto 6.
  - by destruct (MazeManager.choose_and_step s).
Qed.

Lemma not_at_goal s :
  MazeManager.is_player_located_at_goal s = false
  ↔ position (player s) ≠ goal (maze s).
Proof.
  unfold MazeManager.is_player_located_at_goal, Player.is_located_at.
  by rewrite bool_decide_eq_false.
Qed.

(** The run ends as unsolvable exactly when the trajectory comes back
    to a pose it had before any of its positions is the goal. *)
Lemma unsolvable_iff :
  (∃ fuel path, MazeManager.process_players_trial fuel s0 = Unsolvable path)
  ↔ (∃ i j q, (i < j)%nat ∧ pose_at s0 i = Some q ∧ pose_at s0 j = Some q
              ∧ ∀ k s, (k ≤ j)%nat → after s0 k = Some s →
                       position (player s) ≠ goal (maze s0)).
Proof.
  split.
  - intros (fuel & path & Hrun).
    rewrite process_players_trial_first_verdict in Hrun.
    destruct (first_verdict_stops s0 fuel 0 _ Hrun) as (j & _ & Hj & Hbefore);
      [done|]. simpl in Hj, Hbefore.
    destruct (verdict_at_Unsolvable_inv j path Hj) as (s & Hs & _ & Hg & Hin).
    apply elem_of_visited in Hin as (i & Hi & Hpi).
    exists i, j, (Player.to_Pose (player s)).
    split; [done|]. split; [done|]. split; [unfold pose_at; by rewrite Hs|].
    intros k sk Hk Hsk. rewrite <- (after_maze s0 k sk Hsk).
    apply not_at_goal. destruct (decide (k = j)) as [->|].
    + congruence.
    + destruct (verdict_at_None_inv k sk Hsk) as (? & _); [|done].
      apply Hbefore. lia.
  - intros (i & j & q & Hij & Hi & Hj & Hgoal).
    destruct (least_below (λ n, is_Some (verdict_at s0 n)) j)
      as (n & Hn & [o Ho] & Hleast).
    { unfold pose_at in Hj. unfold verdict_at.
      destruct (after s0 j) as [s|] eqn:Hs; [|done]. simpl in Hj.
      rewrite (proj2 (not_at_goal s)).
      2:{ rewrite (after_maze s0 j s Hs). by apply (Hgoal j). }
      rewrite decide_True; [eauto|].
      apply elem_of_visited. exists i. split; [done|]. congruence. }
    exists (S n).
    assert (first_verdict s0 (S n) 0 = o) as Hfirst.
    { apply (first_verdict_reaches s0 n); simpl; [done| |lia].
      intros k Hk. specialize (Hleast k Hk).
      destruct (verdict_at s0 k); [|done]. by destruct Hleast. }
    rewrite process_players_trial_first_verdict, Hfirst.
    assert (is_Some (after s0 n)) as [s Hs].
    { unfold pose_at in Hj. destruct (after s0 j) as [sj|] eqn:Hsj; [|done].
      by apply (after_Some_earlier s0 j n sj). }
    unfold verdict_at in Ho. rewrite Hs in Ho.
    rewrite (proj2 (not_at_goal s)) in Ho.
    2:{ rewrite (after_maze s0 n s Hs). by apply (Hgoal n). }
    destruct (decide (Player.to_Pose (player s) ∈ visited s0 n)) as [|Hnew].
    { injection Ho as <-. eauto. }
    destruct (MazeManager.choose_and_step s) eqn:Hstep; [done|].
    exfalso. destruct (decide (n = j)) as [->|Hne].
    + apply Hnew, elem_of_visited. exists i. split; [done|].
      unfold pose_at in Hj. rewrite Hs in Hj. simpl in Hj. congruence.
    + assert (after s0 (S n) = None) as Hnone by (simpl; by rewrite Hs).
      apply (after_None_later s0 (S n) (j - S n)) in Hnone.
      replace (S n + (j - S n))%nat with j in Hnone by lia.
      unfold pose_at in Hj. by rewrite Hnone in Hj.
Qed.

End Verdicts.

(** C2.  For every maze and player, the trial ends with
    [There is no solution] exactly when, along the trajectory of the
    player, some pose comes back while no position up to then is the goal
    of the maze.  The test that stops the loop compares poses on both
    fields: with the player off the goal and every pose of the history
    that is at its position facing another way, the loop goes on to choose
    a move. *)
Theorem unsolvable_iff_pose_recurs (m : Maze) (p : Player) :
  ((∃ fuel path,
      MazeManager.process_players_trial fuel (new_manager m p)
      = Unsolvable path)
   ↔ (∃ i j q, (i < j)%nat
        ∧ pose_at (new_manager m p) i = Some q
        ∧ pose_at (new_manager m p) j = Some q
        ∧ ∀ k s, (k ≤ j)%nat → after (new_manager m p) k = Some s →
                 position (player s) ≠ goal m))
  ∧ (∀ a b : Player,
       Player.to_Pose a = Player.to_Pose b
       ↔ position a = position b ∧ orientation a = orientation b)
  ∧ (∀ fuel (history : gset Pose) (self : MazeManager),
       MazeManager.is_player_located_at_goal self = false →
       (∀ q, q ∈ history →
             pose_position q = position (player self) →
             pose_orientation q ≠ orientation (player self)) →
       MazeManager.trial_loop (S fuel) history self
       = match MazeManager.choose_and_step self with
         | None => Raised (printed self)
         | Some self' =>
             MazeManager.trial_loop fuel
               (history ∪ {[Player.to_Pose (player self)]}) self'
         end).
Proof.
  split; [apply (unsolvable_iff (new_manager m p))|]. split.
  - intros [] []. unfold Player.to_Pose. simpl. split.
    + by intros [= -> ->].
    + by intros [-> ->].
  - intros fuel history self Hgoal Hother. simpl. rewrite Hgoal.
    destruct (decide (Player.to_Pose (player self) ∈ history)) as [Hin|];
      [|done].
    by destruct (Hother _ Hin).
Qed.

(** ** Where a transition lands *)

Lemma _player_can_go_floor_at self pos :
  MazeManager._player_can_go self pos
  = (λ cell, bool_decide (cell ≠ Wall)) <$> floor_at (maze self) pos.
Proof.
  unfold MazeManager._player_can_go, floor_at.
  destruct (Py.index (floor (maze self)) (x pos)) as [row|]; [|done]. simpl.
  by destruct (Py.index row (y pos)).
Qed.

Lemma can_go_true_not_wall self pos :
  MazeManager._player_can_go self pos = Some true →
  ∃ cell, floor_at (maze self) pos = Some cell ∧ cell ≠ Wall.
Proof.
  rewrite _player_can_go_floor_at.
  destruct (floor_at (maze self) pos) as [cell|]; [|done].
  intros [= H%bool_decide_eq_true]. eauto.
Qed.

Lemma can_go_false_wall self pos :
  MazeManager._player_can_go self pos = Some false →
  floor_at (maze self) pos = Some Wall.
Proof.
  rewrite _player_can_go_floor_at.
  destruct (floor_at (maze self) pos) as [cell|]; [|done].
  intros [= H%bool_decide_eq_false]. f_equal.
  by destruct (decide (cell = Wall)).
Qed.

Lemma turn_around_differs o :
  EOrientation.turn_around o ≠ EOrientation.turn_to_the_right o
  ∧ EOrientation.turn_around o ≠ o
  ∧ EOrientation.turn_around o ≠ EOrientation.turn_to_the_left o.
Proof. by destruct o. Qed.

(** One transition: a step along the orientation it ends with, onto a
    cell that was found not to be a wall unless the transition is the
    about-face. *)
Lemma choose_and_step_lands s s' :
  MazeManager.choose_and_step s = Some s' →
  position (player s')
  = position (player s) +p EOrientation.value (orientation (player s'))
  ∧ printed s' = printed s ++ [(position (player s), orientation (player s'))]
  ∧ (orientation (player s')
     ≠ EOrientation.turn_around (orientation (player s)) →
     ∃ cell, floor_at (maze s) (position (player s')) = Some cell
             ∧ cell ≠ Wall)
  ∧ (orientation (player s')
     = EOrientation.turn_around (orientation (player s)) →
     ∀ o, o ≠ EOrientation.turn_around (orientation (player s)) →
          floor_at (maze s) (prospect s o) = Some Wall).
Proof.
  intros H. destruct (choose_and_step_applied s s' H) as (o & -> & Ho). simpl.
  split; [done|]. split; [done|].
  pose proof (turn_around_differs (orientation (player s))) as (? & ? & ?).
  split.
  - intros Hne. apply (can_go_true_not_wall s).
    by destruct Ho as [[-> ?]|[(-> & ? & _)|[(-> & ? & _)|(-> & _)]]].
  - intros Hback o' Hne. apply (can_go_false_wall s).
    destruct Ho as [[-> _]|[(-> & _)|[(-> & _)|(_ & Hr & Hf & Hl)]]];
      [congruence..|].
    destruct (orientation (player s)), o'; simpl in *; done.
Qed.

Lemma step_back pos o :
  pos +p EOrientation.value o
  +p EOrientation.value (EOrientation.turn_around o) = pos.
Proof. destruct pos, o; unfold point_add; simpl; f_equal; lia. Qed.

(** A player on a cell that is not a wall, with a cell that is not a
    wall next to it, lands on a cell that is not a wall, the about-face
    included: it is made only when the way back is the one that is left;
    and the cell it leaves is then behind it. *)
Lemma step_keeps_open s s' :
  MazeManager.choose_and_step s = Some s' →
  open_at (maze s) (position (player s)) →
  (∃ o, open_at (maze s) (prospect s o)) →
  open_at (maze s) (position (player s'))
  ∧ ∃ o, open_at (maze s) (prospect s' o).
Proof.
  intros Hstep Hhere [o Ho].
  destruct (choose_and_step_lands s s' Hstep) as (Hpos & _ & Hfree & Hback).
  split.
  - destruct (decide (orientation (player s')
                      = EOrientation.turn_around (orientation (player s))))
      as [Hturn|Hturn]; [|by apply Hfree].
    destruct (decide (o = EOrientation.turn_around (orientation (player s))))
      as [->|Hne].
    + by rewrite Hpos, Hturn.
    + destruct Ho as (cell & Hcell & Hopen).
      rewrite (Hback Hturn o Hne) in Hcell. congruence.
  - exists (EOrientation.turn_around (orientation (player s'))).
    unfold prospect. by rewrite Hpos, step_back.
Qed.

Lemma trajectory_open s0 n : ∀ s,
  open_at (maze s0) (position (player s0)) →
  (∃ o, open_at (maze s0) (prospect s0 o)) →
  after s0 n = Some s →
  open_at (maze s0) (position (player s))
  ∧ ∃ o, open_at (maze s0) (prospect s o).
Proof.
  induction n as [|n IH]; intros s Hhere Hnext Hs.
  - by injection Hs as <-.
  - simpl in Hs. destruct (after s0 n) as [sn|] eqn:Hsn; [|done].
    simpl in Hs. destruct (IH sn Hhere Hnext eq_refl) as [? ?].
    rewrite <- (after_maze s0 n sn Hsn). apply step_keeps_open; [done|..];
      by rewrite (after_maze s0 n sn Hsn).
Qed.

Section Trace.

Variable s0 : MazeManager.

(** The lines printed up to iteration [n] are those of [s0] followed by
    one line per transition: the position left and the orientation
    taken. *)
Lemma after_printed n : ∀ s,
  after s0 n = Some s →
  ∃ events, printed s = printed s0 ++ events ∧ length events = n
    ∧ ∀ i si si', (i < n)%nat → after s0 i = Some si →
        after s0 (S i) = Some si' →
        events !! i = Some (position (player si), orientation (player si')).
Proof.
  induction n as [|n IH]; intros s Hs.
  - injection Hs as <-. exists []. rewrite app_nil_r.
    split; [done|]. split; [done|]. intros; lia.
  - simpl in Hs. destruct (after s0 n) as [sn|] eqn:Hn; [|done]. simpl in Hs.
    destruct (IH sn eq_refl) as (events & Hpr & Hlen & Hev).
    destruct (choose_and_step_lands sn s Hs) as (_ & Hpr' & _).
    exists (events ++ [(position (player sn), orientation (player s))]).
    split; [by rewrite Hpr', Hpr, app_assoc|].
    split; [rewrite length_app; simpl; lia|].
    intros i si si' Hi Hsi Hsi'. destruct (decide (i = n)) as [->|].
    + assert (si = sn) as -> by congruence.
      assert (si' = s) as ->.
      { simpl in Hsi'. rewrite Hn in Hsi'. simpl in Hsi'. congruence. }
      rewrite lookup_app_r by lia. by rewrite Hlen, Nat.sub_diag.
    + rewrite lookup_app_l by lia. apply Hev; [lia|done..].
Qed.

(** A run that ends stopped at some iteration of the trajectory, and
    reports what had been printed by then. *)
Lemma verdict_at_path n o :
  verdict_at s0 n = Some o →
  ∃ s, after s0 n = Some s ∧ path_of o = printed s.
Proof.
  unfold verdict_at. destruct (after s0 n) as [s|]; [|done].
  destruct (MazeManager.is_player_located_at_goal s).
  { intros [= <-]. eauto. }
  destruct (decide (Player.to_Pose (player s) ∈ visited s0 n)).
  { intros [= <-]. eauto. }
  destruct (MazeManager.choose_and_step s); [done|].
  intros [= <-]. eauto.
Qed.

Lemma run_stops fuel o :
  MazeManager.process_players_trial fuel s0 = o → o ≠ OutOfFuel →
  ∃ n s, (n < fuel)%nat ∧ verdict_at s0 n = Some o
         ∧ (∀ j, (j < n)%nat → verdict_at s0 j = None)
         ∧ after s0 n = Some s ∧ path_of o = printed s.
Proof.
  rewrite process_players_trial_first_verdict. intros Hrun Hne.
  destruct (first_verdict_stops s0 fuel 0 o Hrun Hne) as (n & ? & Hv & ?).
  simpl in *. destruct (verdict_at_path n o Hv) as (s & ? & ?).
  exists n, s. eauto 6.
Qed.

End Trace.

Example maze1_is_solved :
  ∃ path, Demo.trial 20 Demo.maze1 East = Some (Solved path (mkPoint2D 2 2))
          ∧ length path = 10%nat.
Proof. eexists. split; [vm_compute; reflexivity|reflexivity]. Qed.

Example maze2_is_unsolvable :
  ∃ path, Demo.trial 20 Demo.maze2 East = Some (Unsolvable path)
          ∧ length path = 17%nat.
Proof. eexists. split; [vm_compute; reflexivity|reflexivity]. Qed.

Example maze3_is_solved :
  ∃ path, Demo.trial 20 Demo.maze3 North = Some (Solved path (mkPoint2D 4 2))
          ∧ length path = 9%nat.
Proof. eexists. split; [vm_compute; reflexivity|reflexivity]. Qed.

(** C3, as stated, fails: the text [Demo.walled_in] parses, the trial of
    its maze with the player on the start facing north ends as unsolvable
    after two transitions, and the first of them, the about-face, puts the
    player on the wall at row 2, column 2. *)
Lemma about_face_enters_wall :
  Maze.parse Demo.walled_in = inl Demo.walled_in_maze
  ∧ MazeManager.process_players_trial 3
      (new_manager Demo.walled_in_maze (mkPlayer (mkPoint2D 1 2) North))
    = Unsolvable [(mkPoint2D 1 2, South); (mkPoint2D 2 2, North)]
  ∧ (player <$> after
       (new_manager Demo.walled_in_maze (mkPlayer (mkPoint2D 1 2) North)) 1)
    = Some (mkPlayer (mkPoint2D 2 2) South)
  ∧ floor_at Demo.walled_in_maze (mkPoint2D 2 2) = Some Wall.
Proof. repeat split; vm_compute; reflexivity. Qed.

(** C3, amended.  For every trial that ends and every transition of its
    trace: the transition is one step from the position printed, along
    the orientation printed.  Unless that orientation is the reverse of
    the one before (the about-face, whose cell is not tested, and which
    is made only with a wall on the other three sides), the cell the
    player lands on was looked up in the floor and is not a wall.  When
    the player starts on a cell that is not a wall and one of the four
    cells around the start is not a wall, the cell it lands on is not a
    wall for every transition, the about-face included. *)
Theorem transitions_avoid_walls
  (m : Maze) (p : Player) (fuel : nat) (o : Outcome) (i : nat) :
  MazeManager.process_players_trial fuel (new_manager m p) = o →
  o ≠ OutOfFuel →
  (i < length (path_of o))%nat →
  ∃ s s',
    after (new_manager m p) i = Some s
    ∧ after (new_manager m p) (S i) = Some s'
    ∧ path_of o !! i = Some (position (player s), orientation (player s'))
    ∧ position (player s')
      = position (player s) +p EOrientation.value (orientation (player s'))
    ∧ (orientation (player s')
       ≠ EOrientation.turn_around (orientation (player s)) →
       open_at m (position (player s')))
    ∧ (orientation (player s')
       = EOrientation.turn_around (orientation (player s)) →
       ∀ o', o' ≠ EOrientation.turn_around (orientation (player s)) →
             floor_at m (prospect s o') = Some Wall)
    ∧ (open_at m (position p) →
       (∃ o', open_at m (position p +p EOrientation.value o')) →
       open_at m (position (player s'))).
Proof.
  intros Hrun Hne Hi.
  destruct (run_stops _ fuel o Hrun Hne) as (n & sn & _ & _ & _ & Hsn & Hpath).
  destruct (after_printed _ n sn Hsn) as (events & Hpr & Hlen & Hev).
  simpl in Hpr. rewrite Hpath, Hpr in Hi |- *. rewrite Hlen in Hi.
  destruct (after_Some_earlier _ n (S i) sn Hsn) as [s' Hs']; [lia|].
  pose proof Hs' as Hstep. simpl in Hstep.
  destruct (after (new_manager m p) i) as [s|] eqn:Hs; [|done].
  simpl in Hstep.
  destruct (choose_and_step_lands s s' Hstep) as (Hpos & _ & Hfree & Hback).
  rewrite (after_maze _ i s Hs) in Hfree, Hback.
  exists s, s'. rewrite (Hev i s s' Hi Hs Hs').
  repeat (split; [done|]). intros Hhere Hnext.
  by destruct (trajectory_open (new_manager m p) (S i) s' Hhere Hnext Hs').
Qed.

Lemma transitions_avoid_walls_witness :
  ∃ s s',
    after (new_manager Demo.maze3_maze (mkPlayer (mkPoint2D 3 2) North)) 2
    = Some s
    ∧ after (new_manager Demo.maze3_maze (mkPlayer (mkPoint2D 3 2) North)) 3
      = Some s'
    ∧ orientation (player s) = East ∧ orientation (player s') = West
    ∧ open_at Demo.maze3_maze (position (player s')).
Proof.
  destruct (transitions_avoid_walls
              Demo.maze3_maze (mkPlayer (mkPoint2D 3 2) North) 20
              (MazeManager.process_players_trial 20
                 (new_manager Demo.maze3_maze
                    (mkPlayer (mkPoint2D 3 2) North))) 2)
    as (s & s' & H1 & H2 & _ & _ & _ & _ & H3).
  - reflexivity.
  - vm_compute. discriminate.
  - vm_compute. lia.
  - exists s, s'. split; [exact H1|]. split; [exact H2|].
    pose proof H1 as E1. pose proof H2 as E2. vm_compute in E1, E2.
    injection E1 as <-. injection E2 as <-.
    split; [reflexivity|]. split; [reflexivity|].
    apply H3.
    + by exists Start.
    + exists North. by exists Normal.
Defined.

(** ** Lookups outside the grid *)

Section Index.

Context {A : Type}.
Implicit Types (l : list A) (i : Z).

Lemma index_nonneg l i : 0 ≤ i → Py.index l i = l !! Z.to_nat i.
Proof. intros. unfold Py.index. by rewrite decide_True. Qed.

Lemma index_neg l i :
  - Z.of_nat (length l) ≤ i < 0 →
  Py.index l i = l !! Z.to_nat (Z.of_nat (length l) + i).
Proof.
  intros. unfold Py.index. rewrite decide_False by lia.
  by rewrite decide_True by lia.
Qed.


Lemma index_too_small l i : i < - Z.of_nat (length l) → Py.index l i = None.
Proof.
  intros. unfold Py.index. rewrite decide_False by lia.
  by rewrite decide_False by lia.
Qed.


(** A lookup succeeds exactly inside [-len, len), on the element at the
    index taken modulo the length. *)
Lemma index_Some l i a :
  Py.index l i = Some a
  ↔ - Z.of_nat (length l) ≤ i < Z.of_nat (length l)
    ∧ l !! Z.to_nat (i `mod` Z.of_nat (length l)) = Some a.
Proof.
  destruct (decide (0 ≤ i)) as [Hi|Hi].
  - rewrite index_nonneg by done. split.
    + intros H. pose proof (lookup_lt_Some _ _ _ H).
      rewrite Z.mod_small by lia. split; [lia|done].
    + intros [? H]. by rewrite Z.mod_small in H by lia.
  - destruct (decide (- Z.of_nat (length l) ≤ i)) as [Hlow|Hlow].
    + rewrite index_neg by lia.
      replace (i `mod` Z.of_nat (length l)) with (Z.of_nat (length l) + i).
      * split; [intros; split; [lia|done]|by intros [_ ?]].
      * rewrite <- (Z.mod_add i 1 (Z.of_nat (length l))) by lia.
        rewrite Z.mod_small by lia. lia.
    + rewrite index_too_small by lia. split; [done|]. intros [? _]. lia.
Qed.

End Index.


Example can_go_wraps_to_last_row :
  Maze.parse Demo.maze3 = inl Demo.maze3_maze
  ∧ ∀ m, Maze.parse Demo.maze3 = inl m →
      let self := new_manager m (mkPlayer (start m) North) in
      MazeManager._player_can_go self (mkPoint2D (-2) 2) = Some true
      ∧ MazeManager._player_can_go self (mkPoint2D (-1) (-1)) = Some false
      ∧ MazeManager._player_can_go self (mkPoint2D 6 2) = None
      ∧ MazeManager._player_can_go self (mkPoint2D 2 5) = None.
Proof.
  split; [vm_compute; reflexivity|].
  intros m. vm_compute. intros [= <-]. done.
Qed.

(** ** The text codec *)

Section Comprehension.

Context {A B E : Type} (f : A → B + E).

Lemma comprehension_app l1 l2 bs1 :
  comprehension f l1 = inl bs1 →
  comprehension f (l1 ++ l2)
  = match comprehension f l2 with
    | inl bs2 => inl (bs1 ++ bs2)
    | inr e => inr e
    end.
Proof.
  revert bs1. induction l1 as [|a l1 IH]; intros bs1 H; simpl in *.
  - injection H as <-. by destruct (comprehension f l2).
  - destruct (f a) as [b|]; [|done].
    destruct (comprehension f l1) as [bs|]; [|done]. injection H as <-.
    rewrite (IH bs eq_refl). by destruct (comprehension f l2).
Qed.

Lemma comprehension_raises l1 a l2 bs1 e :
  comprehension f l1 = inl bs1 → f a = inr e →
  comprehension f (l1 ++ a :: l2) = inr e.
Proof.
  intros H1 Ha. rewrite (comprehension_app _ _ _ H1). simpl. by rewrite Ha.
Qed.

Lemma comprehension_fmap {C} (g : C → A) (h : C → B) l :
  (∀ c, f (g c) = inl (h c)) → comprehension f (g <$> l) = inl (h <$> l).
Proof.
  intros H. induction l as [|c l IH]; [done|].
  rewrite !fmap_cons. cbn [comprehension]. by rewrite H, IH.
Qed.

End Comprehension.

(** The glyphs are recognised, and no glyph is a line boundary. *)
Lemma of_to_char (kind : EFloor) : EFloor.of_ (EFloor.to_char kind) = inl kind.
Proof. by destruct kind. Qed.

Lemma of_inl c kind : EFloor.of_ c = inl kind → c = EFloor.to_char kind.
Proof.
  unfold EFloor.of_. repeat case_bool_decide; naive_solver.
Qed.

Lemma of_inr c msg :
  EFloor.of_ c = inr msg →
  msg = EFloor.invalid_character c ∧ ∀ kind, c ≠ EFloor.to_char kind.
Proof.
  unfold EFloor.of_. repeat case_bool_decide; try done.
  intros [= <-]. split; [done|]. by intros [].
Qed.

Lemma of_not_glyph c :
  (∀ kind, c ≠ EFloor.to_char kind) →
  EFloor.of_ c = inr (EFloor.invalid_character c).
Proof.
  intros H. destruct (EFloor.of_ c) as [kind|msg] eqn:E.
  - by destruct (H kind), (of_inl c kind).
  - by destruct (of_inr c msg E) as [-> _].
Qed.

Lemma glyph_not_linebreak (kind : EFloor) :
  Py.is_linebreak (EFloor.to_char kind) = false.
Proof. by destruct kind. Qed.

(** *** Lines *)

Lemma splitlines_from_plain c cur rest :
  Py.is_linebreak c = false →
  Py.splitlines_from cur (c :: rest) = Py.splitlines_from (c :: cur) rest.
Proof. intros H. simpl. by rewrite H. Qed.

Lemma splitlines_from_break c cur rest :
  Py.is_linebreak c = true →
  Py.splitlines_from cur (c :: rest)
  = rev cur :: Py.splitlines_from [] (after_break c rest).
Proof.
  intros H. simpl. rewrite H. unfold after_break.
  destruct rest as [|c' rest']; [done|].
  by destruct (bool_decide (c = 13%N) && bool_decide (c' = 10%N)).
Qed.

Lemma rev_cons_app {A} (a : A) (l : list A) : rev (a :: l) = rev l ++ [a].
Proof. done. Qed.

Lemma splitlines_from_line line : ∀ cur rest,
  Forall (λ c, Py.is_linebreak c = false) line →
  Py.splitlines_from cur (line ++ rest)
  = Py.splitlines_from (rev line ++ cur) rest.
Proof.
  induction line as [|c line IH]; intros cur rest Hline; [done|].
  inversion_clear Hline as [|?? Hc Hl]. simpl app at 1.
  rewrite splitlines_from_plain, IH by done.
  by rewrite (rev_cons_app c line), <- app_assoc.
Qed.

Section InvalidGlyph.

Variables (c : N) (tail : Py.str).
Hypothesis c_not_glyph : ∀ kind, c ≠ EFloor.to_char kind.
Hypothesis c_not_linebreak : Py.is_linebreak c = false.

Let lines_of := comprehension (comprehension EFloor.of_).

(** Once the line being read holds a character that [EFloor.of] refuses,
    the comprehension raises for it, whatever follows. *)
Lemma pending_raises e : ∀ rest cur,
  (∀ more, comprehension EFloor.of_ (rev cur ++ more) = inr e) →
  lines_of (Py.splitlines_from cur rest) = inr e.
Proof.
  induction rest as [|d rest IH]; intros cur Hcur.
  - specialize (Hcur []). rewrite app_nil_r in Hcur.
    destruct cur as [|a cur]; [done|].
    unfold lines_of. cbn [Py.splitlines_from comprehension]. by rewrite Hcur.
  - destruct (Py.is_linebreak d) eqn:Hd.
    + rewrite splitlines_from_break by done.
      specialize (Hcur []). rewrite app_nil_r in Hcur.
      unfold lines_of. cbn [comprehension]. by rewrite Hcur.
    + rewrite splitlines_from_plain by done. apply IH. intros more.
      rewrite (rev_cons_app d cur), <- app_assoc. apply Hcur.
Qed.

Lemma first_invalid_raises n : ∀ before cur kinds,
  (length before ≤ n)%nat →
  comprehension EFloor.of_ (rev cur) = inl kinds →
  Forall (λ b, (∃ kind, b = EFloor.to_char kind) ∨ Py.is_linebreak b = true)
    before →
  lines_of (Py.splitlines_from cur (before ++ c :: tail))
  = inr (EFloor.invalid_character c).
Proof.
  induction n as [|n IH]; intros before cur kinds Hlen Hcur Hbefore.
  - destruct before; [|simpl in Hlen; lia]. simpl.
    rewrite c_not_linebreak. apply pending_raises. intros more.
    rewrite (rev_cons_app c cur), <- app_assoc.
    apply (comprehension_raises _ _ _ _ kinds); [done|].
    by apply of_not_glyph.
  - destruct before as [|b before]; [by apply (IH [] cur kinds); [simpl; lia|..]|].
    inversion_clear Hbefore as [|?? Hb Hrest]. simpl in Hlen.
    rewrite <- app_comm_cons. destruct (Py.is_linebreak b) eqn:Hbreak.
    + rewrite splitlines_from_break by done.
      unfold lines_of. cbn [comprehension]. rewrite Hcur.
      fold lines_of.
      assert (lines_of (Py.splitlines_from [] (after_break b (before ++ c :: tail)))
              = inr (EFloor.invalid_character c)) as ->; [|done].
      unfold after_break.
      destruct before as [|b' before]; simpl.
      * destruct (bool_decide (b = 13%N) && bool_decide (c = 10%N)) eqn:Hcr.
        -- apply andb_true_iff in Hcr as [_ ->%bool_decide_eq_true]. done.
        -- by apply (IH [] [] []); [simpl; lia|..].
      * inversion_clear Hrest as [|?? Hb' Hrest'].
        destruct (bool_decide (b = 13%N) && bool_decide (b' = 10%N)).
        -- apply (IH before [] []); [simpl in *; lia|done..].
        -- apply (IH (b' :: before) [] []); [simpl in *; lia|done|].
           by constructor.
    + destruct Hb as [[kind ->]|?]; [|congruence].
      rewrite splitlines_from_plain by done.
      apply (IH before _ (kinds ++ [kind])); [lia| |done].
      rewrite (rev_cons_app _ cur), (comprehension_app _ _ _ _ Hcur). simpl.
      by rewrite of_to_char.
Qed.

End InvalidGlyph.

(** *** Parse errors *)

(** C7.  A text without ['o'] makes [parse] print the line about the
    beginning position and exit, whether or not it holds an ['x']; a text
    with an ['o'] and without ['x'] makes it print the line about the exit
    position and exit.  In both cases no maze is built.  The two lines
    differ, and each is the sentence of the specification between
    [Error: ] and [ Abort program.]. *)
Theorem parse_missing_marker (s : Py.str) :
  (EFloor.to_char Start ∉ s →
   Maze.parse s = inr (SystemExit Maze.cannot_find_start 1))
  ∧ (EFloor.to_char Start ∈ s → EFloor.to_char Goal ∉ s →
     Maze.parse s = inr (SystemExit Maze.cannot_find_goal 1))
  ∧ Maze.cannot_find_start ≠ Maze.cannot_find_goal
  ∧ Maze.cannot_find_start
    = Py.lit "Error: " ++ Py.lit "Cannot find the beginning position."
      ++ Py.lit " Abort program."
  ∧ Maze.cannot_find_goal
    = Py.lit "Error: " ++ Py.lit "Cannot find the exit position."
      ++ Py.lit " Abort program.".
Proof.
  unfold Maze.parse, Maze._validate, Py.contains.
  split; [|split; [|split; [|split]]].
  - intros H. by rewrite bool_decide_eq_false_2.
  - intros Ho Hx. rewrite bool_decide_eq_true_2 by done.
    by rewrite bool_decide_eq_false_2.
  - vm_compute. discriminate.
  - reflexivity.
  - reflexivity.
Qed.

Example parse_without_markers :
  Maze.parse (Py.lit "* *") = inr (SystemExit Maze.cannot_find_start 1)
  ∧ Maze.parse (Py.lit "*x*") = inr (SystemExit Maze.cannot_find_start 1)
  ∧ Maze.parse (Py.lit "*o*") = inr (SystemExit Maze.cannot_find_goal 1).
Proof. repeat split; vm_compute; reflexivity. Qed.

(** C6, as stated, fails in two ways.  The text [#] holds a character
    outside the glyph table, and [parse] ends with the exit for the
    missing start, not with [ValueError].  The text of the lines [o] and
    [x] holds a line feed, which is outside the glyph table too, and
    parses. *)
Lemma invalid_glyph_not_reported :
  (Py.of_ascii "#" ∈ Py.lit "#"
   ∧ (∀ kind, Py.of_ascii "#" ≠ EFloor.to_char kind)
   ∧ Maze.parse (Py.lit "#") = inr (SystemExit Maze.cannot_find_start 1))
  ∧ (10%N ∈ [111; 10; 120]%N
     ∧ (∀ kind, 10%N ≠ EFloor.to_char kind)
     ∧ Maze.parse [111; 10; 120]%N
       = inl (mkMaze [[Start]; [Goal]] (mkPoint2D 0 0) (mkPoint2D 1 0))).
Proof.
  split; (split; [vm_compute; set_solver|]); (split; [by intros []|]);
    vm_compute; reflexivity.
Qed.

(** C6, amended.  For every text that holds an ['o'] and an ['x'], and a
    character [c] that is neither a glyph nor a line boundary and is the
    first such character of the text, [parse] raises
    [ValueError("Invalid character: 'c'")] and builds no maze. *)
Theorem parse_first_invalid_glyph (before : Py.str) (c : N) (tail : Py.str) :
  EFloor.to_char Start ∈ before ++ c :: tail →
  EFloor.to_char Goal ∈ before ++ c :: tail →
  Forall (λ b, (∃ kind, b = EFloor.to_char kind) ∨ Py.is_linebreak b = true)
    before →
  (∀ kind, c ≠ EFloor.to_char kind) →
  Py.is_linebreak c = false →
  Maze.parse (before ++ c :: tail)
  = inr (ValueError (Py.lit "Invalid character: '" ++ [c] ++ Py.lit "'")).
Proof.
  intros Ho Hx Hbefore Hc Hbreak.
  unfold Maze.parse, Maze._validate, Py.contains, Py.splitlines.
  rewrite !bool_decide_eq_true_2 by done. simpl negb. cbv iota.
  by rewrite (first_invalid_raises c tail Hc Hbreak (length before) before [] []).
Qed.

Lemma parse_first_invalid_glyph_witness :
  Maze.parse (Py.lit "o x
#*")
  = inr (ValueError (Py.lit "Invalid character: '#'")).
Proof.
  apply (parse_first_invalid_glyph
           (Py.lit "o x
") (Py.of_ascii "#") (Py.lit "*")).
  - vm_compute. set_solver.
  - vm_compute. set_solver.
  - change (Py.lit _) with [111; 32; 120; 10]%N.
    repeat (constructor;
            [first [ by left; exists Start | by left; exists Normal
                   | by left; exists Goal | by right ]|]).
    constructor.
  - by intros [].
  - reflexivity.
Defined.

(** *** Rendering and parsing again *)

Lemma splitlines_from_linesep sep cur rest :
  sep = LF ∨ sep = CRLF →
  Py.splitlines_from cur (sep ++ rest) = rev cur :: Py.splitlines_from [] rest.
Proof.
  intros [->| ->]; simpl app.
  - rewrite splitlines_from_break by done. by destruct rest.
  - by rewrite splitlines_from_break by done.
Qed.

(** Joined lines split back into themselves, unless the last line is
    empty: that one is lost. *)
Lemma splitlines_join sep (rows : list Py.str) :
  sep = LF ∨ sep = CRLF →
  Forall (Forall (λ c, Py.is_linebreak c = false)) rows →
  last rows ≠ Some [] →
  Py.splitlines (Py.join sep rows) = rows.
Proof.
  intros Hsep. unfold Py.splitlines.
  induction rows as [|l rows IH]; intros Hrows Hlast; [done|].
  inversion_clear Hrows as [|?? Hl Hrest].
  destruct rows as [|l2 rows].
  - simpl in *. rewrite <- (app_nil_r l) at 1.
    rewrite splitlines_from_line, app_nil_r by done.
    destruct l as [|c l]; [done|].
    destruct (rev (c :: l)) as [|n l0] eqn:E.
    + apply (f_equal (@length N)) in E. rewrite length_rev in E. done.
    + change (Py.splitlines_from (n :: l0) []) with [rev (n :: l0)].
      by rewrite <- E, rev_involutive.
  - change (Py.join sep (l :: l2 :: rows))
      with (l ++ sep ++ Py.join sep (l2 :: rows)).
    rewrite splitlines_from_line, app_nil_r by done.
    rewrite splitlines_from_linesep, rev_involutive by done.
    f_equal. by apply IH.
Qed.

Lemma elem_of_join sep (rows : list Py.str) row c :
  row ∈ rows → c ∈ row → c ∈ Py.join sep rows.
Proof.
  induction rows as [|l rows IH]; intros Hrow Hc; [by apply elem_of_nil in Hrow|].
  destruct rows as [|l2 rows].
  - apply list_elem_of_singleton in Hrow as ->. done.
  - change (Py.join sep (l :: l2 :: rows))
      with (l ++ sep ++ Py.join sep (l2 :: rows)).
    apply elem_of_cons in Hrow as [->|Hrow].
    + apply elem_of_app. by left.
    + apply elem_of_app. right. apply elem_of_app. right. by apply IH.
Qed.

Lemma _find_xy_Some kind rows pos :
  Maze._find_xy kind rows = Some pos → ∃ row, row ∈ rows ∧ kind ∈ row.
Proof.
  unfold Maze._find_xy, Maze.rows_holding.
  destruct (head _) as [i|] eqn:Hhead; [|done]. intros _.
  apply head_Some_elem_of, list_elem_of_fmap in Hhead as ([j row] & _ & Hin).
  apply list_elem_of_filter in Hin as [Hkind Hin]. simpl in Hkind.
  apply list_elem_of_lookup in Hin as [k Hk].
  rewrite list_lookup_imap in Hk.
  destruct (rows !! k) as [row'|] eqn:Hrow; [|done]. injection Hk as _ <-.
  exists row'. split; [|done]. by apply list_elem_of_lookup_2 with k.
Qed.

Lemma parse_inl s m :
  Maze.parse s = inl m →
  comprehension (comprehension EFloor.of_) (Py.splitlines s) = inl (floor m)
  ∧ Maze._find_xy Start (floor m) = Some (start m)
  ∧ Maze._find_xy Goal (floor m) = Some (goal m).
Proof.
  unfold Maze.parse. destruct (Maze._validate s); [|done].
  destruct (comprehension _ _) as [floors|]; [|done].
  destruct (Maze._find_xy Start floors) as [start_at|] eqn:Hs; [|done].
  destruct (Maze._find_xy Goal floors) as [goal_at|] eqn:Hg; [|done].
  by intros [= <-].
Qed.

(** C8, as stated, fails: the text of the lines [o], [x] and an empty
    third line parses into a grid of three rows, the last one empty; its
    rendering ends with the separator, and parsing that gives a grid of
    two rows. *)
Lemma round_trip_loses_empty_last_row :
  Maze.parse [111; 10; 120; 10; 10]%N
  = inl (mkMaze [[Start]; [Goal]; []] (mkPoint2D 0 0) (mkPoint2D 1 0))
  ∧ Maze.to_string LF
      (mkMaze [[Start]; [Goal]; []] (mkPoint2D 0 0) (mkPoint2D 1 0))
    = [111; 10; 120; 10]%N
  ∧ Maze.parse [111; 10; 120; 10]%N
    = inl (mkMaze [[Start]; [Goal]] (mkPoint2D 0 0) (mkPoint2D 1 0))
  ∧ [[Start]; [Goal]; []] ≠ [[Start]; [Goal]].
Proof. repeat split; try (vm_compute; reflexivity). discriminate. Qed.

(** C8, amended.  For every text that parses into a maze [m] whose last
    row is not empty, the rendering of [m], with either line separator,
    parses into [m] again: the same grid, start and goal. *)
Theorem parse_to_string_round_trip (text linesep : Py.str) (m : Maze) :
  linesep = LF ∨ linesep = CRLF →
  Maze.parse text = inl m →
  last (floor m) ≠ Some [] →
  Maze.parse (Maze.to_string linesep m) = inl m.
Proof.
  intros Hsep Hparse Hlast.
  destruct (parse_inl text m Hparse) as (_ & Hstart & Hgoal).
  destruct (_find_xy_Some _ _ _ Hstart) as (row_o & Hrow_o & Ho).
  destruct (_find_xy_Some _ _ _ Hgoal) as (row_x & Hrow_x & Hx).
  assert (∀ kind row, row ∈ floor m → kind ∈ row →
            EFloor.to_char kind ∈ Maze.to_string linesep m) as Hin.
  { intros kind row Hrow Hkind. unfold Maze.to_string.
    apply (elem_of_join _ _ (EFloor.to_char <$> row)).
    - by apply (list_elem_of_fmap_2 (fmap EFloor.to_char)).
    - by apply list_elem_of_fmap_2. }
  unfold Maze.parse, Maze._validate, Py.contains.
  rewrite !bool_decide_eq_true_2 by eauto. simpl negb. cbv iota.
  unfold Maze.to_string. rewrite splitlines_join; [|done| |].
  - rewrite (comprehension_fmap _ (fmap EFloor.to_char) id).
    + rewrite list_fmap_id, Hstart, Hgoal. by destruct m.
    + intros row.
      rewrite (comprehension_fmap _ EFloor.to_char id); [|apply of_to_char].
      by rewrite list_fmap_id.
  - apply Forall_fmap, Forall_forall. intros row _.
    apply Forall_fmap, Forall_forall. intros kind _.
    apply glyph_not_linebreak.
  - rewrite fmap_last. destruct (last (floor m)) as [[|kind row]|]; done.
Qed.

Lemma parse_to_string_round_trip_witness :
  ∃ m, Maze.parse Demo.maze3 = inl m
       ∧ Maze.parse (Maze.to_string CRLF m) = inl m.
Proof.
  exists Demo.maze3_maze.
  split; [vm_compute; reflexivity|].
  apply (parse_to_string_round_trip Demo.maze3 CRLF).
  - by right.
  - vm_compute. reflexivity.
  - discriminate.
Defined.

(** ** Termination *)

Lemma length_poses_in x0 nx y0 ny :
  length (poses_in x0 nx y0 ny) = (Z.to_nat nx * Z.to_nat ny * 4)%nat.
Proof.
  unfold poses_in. rewrite length_fmap, !list_cprod_list_prod.
  by rewrite !length_prod, !length_seqZ.
Qed.

Lemma elem_of_poses_in x0 nx y0 ny pos o :
  x0 ≤ x pos < x0 + nx → y0 ≤ y pos < y0 + ny →
  mkPose pos o ∈ poses_in x0 nx y0 ny.
Proof.
  intros Hx Hy. unfold poses_in. apply list_elem_of_fmap.
  exists (x pos, y pos, o). split; [by destruct pos|].
  rewrite !list_elem_of_cprod, !elem_of_seqZ. simpl.
  split; [done|]. unfold orientations. destruct o; repeat constructor.
Qed.

Lemma size_list_to_set_le (l : list Pose) :
  (size (list_to_set l : gset Pose) ≤ length l)%nat.
Proof.
  induction l as [|a l IH].
  - by rewrite list_to_set_nil, size_empty.
  - rewrite list_to_set_cons, size_union_alt, size_singleton.
    assert (size (list_to_set l ∖ {[a]} : gset Pose)
            ≤ size (list_to_set l : gset Pose))%nat as Hle.
    { apply subseteq_size. apply subseteq_difference_l. done. }
    simpl. lia.
Qed.

(** An iteration that makes a transition has looked up the cell on the
    right of the player: the player is within one step of the range of
    indices that do not raise. *)
Lemma choose_and_step_near s s' (R C : nat) :
  MazeManager.choose_and_step s = Some s' →
  length (floor (maze s)) = R →
  Forall (λ row, (length row ≤ C)%nat) (floor (maze s)) →
  - Z.of_nat R - 1 ≤ x (position (player s)) < - Z.of_nat R - 1 + (2 * Z.of_nat R + 2)
  ∧ - Z.of_nat C - 1 ≤ y (position (player s)) < - Z.of_nat C - 1 + (2 * Z.of_nat C + 2).
Proof.
  intros Hstep HR HC. unfold MazeManager.choose_and_step in Hstep.
  destruct (MazeManager.player_can_go_right s) as [b|] eqn:Hright; [|done].
  clear Hstep. unfold MazeManager.player_can_go_right,
    MazeManager._player_can_go in Hright.
  destruct (Py.index (floor (maze s)) _) as [row|] eqn:Hrow; [|done].
  simpl in Hright.
  destruct (Py.index row _) as [cell|] eqn:Hcell; [|done].
  apply index_Some in Hrow as [Hx Hrow], Hcell as [Hy _].
  apply list_elem_of_lookup_2 in Hrow.
  rewrite Forall_forall in HC. specialize (HC row Hrow).
  rewrite HR in Hx.
  destruct (orientation (player s)); simpl in Hx, Hy; lia.
Qed.

(** More precisely, the cell on the right of the player is in the range
    of the indices that do not raise. *)
Lemma choose_and_step_right s s' (R C : nat) :
  MazeManager.choose_and_step s = Some s' →
  length (floor (maze s)) = R →
  Forall (λ row, (length row ≤ C)%nat) (floor (maze s)) →
  - Z.of_nat R
    ≤ x (prospect s (EOrientation.turn_to_the_right (orientation (player s))))
    < - Z.of_nat R + 2 * Z.of_nat R
  ∧ - Z.of_nat C
    ≤ y (prospect s (EOrientation.turn_to_the_right (orientation (player s))))
    < - Z.of_nat C + 2 * Z.of_nat C.
Proof.
  intros Hstep HR HC. unfold MazeManager.choose_and_step in Hstep.
  destruct (MazeManager.player_can_go_right s) as [b|] eqn:Hright; [|done].
  clear Hstep. unfold MazeManager.player_can_go_right,
    MazeManager._player_can_go in Hright.
  destruct (Py.index (floor (maze s)) _) as [row|] eqn:Hrow; [|done].
  simpl in Hright.
  destruct (Py.index row _) as [cell|] eqn:Hcell; [|done].
  apply index_Some in Hrow as [Hx Hrow], Hcell as [Hy _].
  apply list_elem_of_lookup_2 in Hrow.
  rewrite Forall_forall in HC. specialize (HC row Hrow).
  rewrite HR in Hx. unfold prospect, point_add in *. simpl in *. lia.
Qed.

Lemma step_right_left pos o :
  pos +p EOrientation.value (EOrientation.turn_to_the_right o)
  +p EOrientation.value (EOrientation.turn_to_the_left o) = pos.
Proof. destruct pos, o; unfold point_add; simpl; f_equal; lia. Qed.

Section Counting.

Variable s0 : MazeManager.

(** While no iteration has a verdict, the trajectory goes on and every
    iteration records a pose that was not in the history. *)
Lemma no_verdict_before n :
  (∀ j, (j < n)%nat → verdict_at s0 j = None) →
  is_Some (after s0 n) ∧ size (visited s0 n) = n.
Proof.
  induction n as [|n IH]; intros Hnone.
  - split; [by eexists|]. apply size_empty.
  - destruct IH as [[s Hs] Hsize]; [intros; apply Hnone; lia|].
    destruct (verdict_at_None_inv s0 n s Hs) as (_ & Hnew & [s' Hs']);
      [apply Hnone; lia|].
    split; [exists s'; simpl; by rewrite Hs|].
    cbn [visited]. unfold pose_at. rewrite Hs. cbn [fmap option_fmap option_map].
    rewrite size_union by set_solver. rewrite size_singleton. lia.
Qed.

(** The history holds poses of iterations that made a transition. *)
Lemma visited_stepped n q :
  (∀ j, (j < n)%nat → verdict_at s0 j = None) →
  q ∈ visited s0 n →
  ∃ j s s', (j < n)%nat ∧ after s0 j = Some s
            ∧ MazeManager.choose_and_step s = Some s'
            ∧ q = Player.to_Pose (player s).
Proof.
  intros Hnone (j & Hj & Hq)%elem_of_visited. unfold pose_at in Hq.
  destruct (after s0 j) as [s|] eqn:Hs; [|done]. injection Hq as <-.
  destruct (verdict_at_None_inv s0 j s Hs) as (_ & _ & [s' Hs']);
    [by apply Hnone|].
  exists j, s, s'. done.
Qed.

(** The pigeonhole: with every recorded pose in a list of [K] poses, no
    more than [K] iterations go by without a verdict. *)
Lemma iterations_bounded n (box : list Pose) :
  (∀ j, (j < n)%nat → verdict_at s0 j = None) →
  (∀ q, q ∈ visited s0 n → q ∈ box) →
  (n ≤ length box)%nat.
Proof.
  intros Hnone Hbox. destruct (no_verdict_before n Hnone) as [_ <-].
  etrans; [|apply size_list_to_set_le].
  apply subseteq_size. intros q Hq. apply elem_of_list_to_set. by apply Hbox.
Qed.

End Counting.

Lemma verdict_at_ended s0 n o : verdict_at s0 n = Some o → o ≠ OutOfFuel.
Proof.
  unfold verdict_at. destruct (after s0 n) as [s|]; [|done].
  destruct (MazeManager.is_player_located_at_goal s); [by intros [= <-]|].
  destruct (decide (_ ∈ _)); [by intros [= <-]|].
  destruct (MazeManager.choose_and_step s); [done|by intros [= <-]].
Qed.

(** Why the poses of the grid do not bound the trial: the history is not
    drawn from the pairs of a cell of the grid and an orientation.  In
    the maze of [Demo.open_column], with the player on the start facing
    north, the player walks up the open column, and the lookup of row -1
    wraps to the last row: the iterations go on at rows -1, -2 and -3,
    which are no rows of the grid, and the pose at row -2 is recorded as
    unseen although it is on the start cell facing north, as the first
    pose was.  The trial ends after four transitions, on the lookup of
    row -4, which raises. *)
Example recorded_pose_outside_grid :
  Maze.parse Demo.open_column = inl Demo.open_column_maze
  ∧ MazeManager.process_players_trial 6
      (new_manager Demo.open_column_maze (mkPlayer (mkPoint2D 1 0) North))
    = Raised [(mkPoint2D 1 0, North); (mkPoint2D 0 0, North);
              (mkPoint2D (-1) 0, North); (mkPoint2D (-2) 0, North)]
  ∧ visited
      (new_manager Demo.open_column_maze (mkPlayer (mkPoint2D 1 0) North)) 4
    = {[ mkPose (mkPoint2D 1 0) North; mkPose (mkPoint2D 0 0) North;
         mkPose (mkPoint2D (-1) 0) North; mkPose (mkPoint2D (-2) 0) North ]}
  ∧ floor_at Demo.open_column_maze (mkPoint2D 1 0) = Some Start
  ∧ floor_at Demo.open_column_maze (mkPoint2D (-2) 0) = Some Start
  ∧ ¬ in_grid 3 3 (mkPoint2D (-2) 0).
Proof.
  split; [vm_compute; reflexivity|]. split; [vm_compute; reflexivity|].
  split; [|split; [reflexivity|split; [reflexivity|]]].
  - apply set_eq. intros q. rewrite elem_of_visited. split.
    + intros (i & Hi & Hq).
      destruct i as [|[|[|[|i]]]]; [| | | |lia];
        injection Hq as <-; set_solver.
    + rewrite !elem_of_union, !elem_of_singleton.
      intros [[[->| ->]| ->]| ->];
        [exists 0%nat|exists 1%nat|exists 2%nat|exists 3%nat];
        (split; [lia|reflexivity]).
  - unfold in_grid. simpl. lia.
Qed.

(** C4, as stated, fails: [R * C * 4 + 1] does not bound the
    transitions.  The text [Demo.long_walk] parses into a maze of 9 rows
    of at most 9 columns, and the trial of a player on its start facing
    north makes 328 transitions, more than [9 * 9 * 4 + 1 = 325], before
    it ends on a lookup that raises: with 326 iterations of the loop
    allowed it has not ended.  The player leaves the grid through the
    rows and columns that have no wall at their end, and the lookups at
    negative indices let it walk through the grid again at positions it
    has not been at. *)
Lemma run_exceeds_bound :
  ∃ m path,
    Maze.parse Demo.long_walk = inl m
    ∧ length (floor m) = 9%nat
    ∧ Forall (λ row, (length row ≤ 9)%nat) (floor m)
    ∧ MazeManager.process_players_trial 329
        (new_manager m (mkPlayer (start m) North))
      = Raised path
    ∧ length path = 328%nat
    ∧ (9 * 9 * 4 + 1 < length path)%nat
    ∧ MazeManager.process_players_trial 326
        (new_manager m (mkPlayer (start m) North))
      = OutOfFuel
    ∧ ¬ Forall (λ e : Event, in_grid 9 9 e.1) path.
Proof.
  eexists _, _. split; [vm_compute; reflexivity|].
  split; [reflexivity|]. split; [repeat constructor|].
  split; [vm_compute; reflexivity|]. split; [reflexivity|].
  split; [vm_compute; lia|]. split; [vm_compute; reflexivity|].
  rewrite Forall_forall. intros Hall.
  destruct (Hall (mkPoint2D 2 (-1), East)) as [_ Hy].
  - apply list_elem_of_lookup. exists 72%nat. reflexivity.
  - simpl in Hy. lia.
Qed.

(** Every trial ends: after some number [n] of transitions the loop has
    a verdict, whatever fuel above [n] it is given.  Each of the [n]
    iterations recorded a pose that was not in the history and looked up
    the cell on its right without raising: that cell is one of the
    [2 R * 2 C] positions that index the floor, so the poses are among
    [16 R C].  When the positions printed are cells of the grid, the
    poses are among the [4 R C] of the grid. *)
Lemma trial_ends (m : Maze) (p : Player) (R C : nat) :
  length (floor m) = R →
  Forall (λ row, (length row ≤ C)%nat) (floor m) →
  ∃ n o,
    (∀ fuel, (n < fuel)%nat →
             MazeManager.process_players_trial fuel (new_manager m p) = o)
    ∧ o ≠ OutOfFuel
    ∧ length (path_of o) = n
    ∧ size (visited (new_manager m p) n) = n
    ∧ (∀ q, q ∈ visited (new_manager m p) n →
         - Z.of_nat R - 1 ≤ x (pose_position q) ≤ Z.of_nat R
         ∧ - Z.of_nat C - 1 ≤ y (pose_position q) ≤ Z.of_nat C
         ∧ - Z.of_nat R
           ≤ x (pose_position q
                +p EOrientation.value
                     (EOrientation.turn_to_the_right (pose_orientation q)))
           < Z.of_nat R
         ∧ - Z.of_nat C
           ≤ y (pose_position q
                +p EOrientation.value
                     (EOrientation.turn_to_the_right (pose_orientation q)))
           < Z.of_nat C)
    ∧ (n ≤ 16 * R * C)%nat
    ∧ (Forall (λ e : Event, in_grid R C e.1) (path_of o) →
       (n ≤ 4 * R * C)%nat).
Proof.
  intros HR HC. set (s0 := new_manager m p).
  set (K := (16 * R * C)%nat).
  destruct (least_or_none (λ n, is_Some (verdict_at s0 n)) (S K))
    as [(n & Hn & [o Ho] & Hleast)|Hnone].
  - assert (∀ j, (j < n)%nat → verdict_at s0 j = None) as Hbefore.
    { intros j Hj. specialize (Hleast j Hj).
      destruct (verdict_at s0 j); [|done]. by destruct Hleast. }
    destruct (verdict_at_path s0 n o Ho) as (s & Hs & Hpath).
    destruct (after_printed s0 n s Hs) as (events & Hpr & Hlen & Hev).
    simpl in Hpr. rewrite Hpr in Hpath.
    exists n, o. split; [|split; [|split; [|split; [|split; [|split]]]]].
    + intros fuel Hfuel. rewrite process_players_trial_first_verdict.
      by apply (first_verdict_reaches s0 n).
    + by apply (verdict_at_ended s0 n).
    + by rewrite Hpath.
    + by destruct (no_verdict_before s0 n Hbefore).
    + intros q (j & sj & sj' & Hj & Hsj & Hstep & ->)%visited_stepped;
        [|done].
      pose proof (after_maze s0 j sj Hsj) as Hmaze. simpl in Hmaze.
      destruct (choose_and_step_near sj sj' R C Hstep) as [? ?];
        [by rewrite Hmaze..|].
      destruct (choose_and_step_right sj sj' R C Hstep) as [? ?];
        [by rewrite Hmaze..|].
      unfold prospect, point_add, Player.to_Pose in *. simpl in *. lia.
    + lia.
    + rewrite Hpath. intros Hgrid.
      etrans; [apply (iterations_bounded s0 n (poses_in 0 (Z.of_nat R) 0 (Z.of_nat C)) Hbefore)|].
      * intros q (j & sj & sj' & Hj & Hsj & Hstep & ->)%visited_stepped;
          [|done].
        rewrite Forall_forall in Hgrid.
        assert (after s0 (S j) = Some sj') as Hsj'
          by (simpl; by rewrite Hsj).
        specialize (Hev j sj sj' Hj Hsj Hsj').
        apply list_elem_of_lookup_2, Hgrid in Hev as [? ?]. simpl in *.
        apply elem_of_poses_in; lia.
      * rewrite length_poses_in. lia.
  - exfalso.
    assert (∀ j, (j < S K)%nat → verdict_at s0 j = None) as Hbefore.
    { intros j Hj. specialize (Hnone j Hj).
      destruct (verdict_at s0 j); [|done]. destruct Hnone. eauto. }
    pose proof (iterations_bounded s0 (S K)
      ((λ q, mkPose (pose_position q
                     +p EOrientation.value
                          (EOrientation.turn_to_the_left (pose_orientation q)))
                    (pose_orientation q))
         <$> poses_in (- Z.of_nat R) (2 * Z.of_nat R)
                      (- Z.of_nat C) (2 * Z.of_nat C)) Hbefore) as Hle.
    rewrite length_fmap, length_poses_in in Hle.
    assert (S K ≤ Z.to_nat (2 * Z.of_nat R)
                  * Z.to_nat (2 * Z.of_nat C) * 4)%nat; [|unfold K in *; lia].
    apply Hle.
    intros q (j & sj & sj' & Hj & Hsj & Hstep & ->)%visited_stepped; [|done].
    pose proof (after_maze s0 j sj Hsj) as Hmaze. simpl in Hmaze.
    destruct (choose_and_step_right sj sj' R C Hstep) as [? ?];
      [by rewrite Hmaze..|].
    apply list_elem_of_fmap.
    exists (mkPose (prospect sj (EOrientation.turn_to_the_right
                                   (orientation (player sj))))
                   (orientation (player sj))).
    split; [|by apply elem_of_poses_in].
    unfold prospect, Player.to_Pose. simpl. by rewrite step_right_left.
Qed.


(** *** Grids with walls all around *)

Section Enclosed.

Variables (m : Maze) (R C : nat).
Hypothesis walls_around : enclosed m R C.

Lemma floor_at_in_grid pos : in_grid R C pos → is_Some (floor_at m pos).
Proof.
  destruct walls_around as (HR & HC & _). intros [Hx Hy]. unfold floor_at.
  rewrite index_nonneg by lia.
  destruct (lookup_lt_is_Some_2 (floor m) (Z.to_nat (x pos))) as [row Hrow];
    [lia|].
  rewrite Hrow. simpl. rewrite index_nonneg by lia.
  apply lookup_lt_is_Some_2. apply list_elem_of_lookup_2 in Hrow.
  rewrite Forall_forall in HC. rewrite (HC row Hrow). lia.
Qed.

Lemma inside_in_grid pos : inside R C pos → in_grid R C pos.
Proof. unfold inside, in_grid. lia. Qed.

Lemma around_inside_in_grid pos o :
  inside R C pos → in_grid R C (pos +p EOrientation.value o).
Proof. unfold inside, in_grid. destruct o; simpl; lia. Qed.

Lemma open_at_inside pos : in_grid R C pos → open_at m pos → inside R C pos.
Proof.
  destruct walls_around as (_ & _ & Hborder).
  intros Hgrid (cell & Hcell & Hopen).
  destruct (decide (x pos = 0 ∨ x pos = Z.of_nat R - 1
                    ∨ y pos = 0 ∨ y pos = Z.of_nat C - 1)) as [Hb|Hb].
  - rewrite (Hborder pos Hgrid Hb) in Hcell. congruence.
  - unfold inside, in_grid in *. lia.
Qed.

Lemma can_go_in_grid s pos :
  maze s = m → in_grid R C pos →
  MazeManager._player_can_go s pos = Some true ∧ open_at m pos
  ∨ MazeManager._player_can_go s pos = Some false
    ∧ floor_at m pos = Some Wall.
Proof.
  intros Hmaze Hgrid. rewrite _player_can_go_floor_at, Hmaze.
  destruct (floor_at_in_grid pos Hgrid) as [cell Hcell]. rewrite Hcell. simpl.
  destruct (decide (cell = Wall)) as [->|Hne].
  - right. by rewrite bool_decide_eq_false_2 by tauto.
  - left. rewrite bool_decide_eq_true_2 by done. split; [done|].
    by exists cell.
Qed.

(** From a cell inside with a way out, the iteration raises nothing and
    lands inside, with the cell it left behind it. *)
Lemma step_inside s :
  maze s = m → can_move m R C (player s) →
  ∃ s', MazeManager.choose_and_step s = Some s'
        ∧ maze s' = m ∧ can_move m R C (player s').
Proof.
  intros Hmaze (Hin & Hopen & [o Ho]).
  assert (∀ o', open_at m (prospect s o') →
                MazeManager.choose_and_step s = Some (applied s o') →
                ∃ s', MazeManager.choose_and_step s = Some s'
                      ∧ maze s' = m ∧ can_move m R C (player s')) as Hgo.
  { intros o' Hopen' Hstep. exists (applied s o').
    split; [done|]. split; [done|]. split; [|split; [done|]].
    - apply open_at_inside; [|done]. by apply around_inside_in_grid.
    - exists (EOrientation.turn_around o'). simpl. unfold prospect.
      by rewrite step_back. }
  set (here := orientation (player s)).
  destruct (can_go_in_grid s (prospect s (EOrientation.turn_to_the_right here))
              Hmaze (around_inside_in_grid _ _ Hin)) as [[Hr ?]|[Hr Hrw]].
  { apply (Hgo _ H). by apply choose_right. }
  destruct (can_go_in_grid s (prospect s here)
              Hmaze (around_inside_in_grid _ _ Hin)) as [[Hf ?]|[Hf Hfw]].
  { apply (Hgo _ H). by apply choose_forward. }
  destruct (can_go_in_grid s (prospect s (EOrientation.turn_to_the_left here))
              Hmaze (around_inside_in_grid _ _ Hin)) as [[Hl ?]|[Hl Hlw]].
  { apply (Hgo _ H). by apply choose_left. }
  apply (Hgo (EOrientation.turn_around here)); [|by apply choose_about_face].
  destruct Ho as (cell & Hcell & Hne). unfold prospect in *.
  subst here. destruct (orientation (player s)), o; simpl in *;
    first [ by exists cell | congruence ].
Qed.

Lemma trajectory_inside s0 n :
  maze s0 = m → can_move m R C (player s0) →
  ∃ s, after s0 n = Some s ∧ maze s = m ∧ can_move m R C (player s).
Proof.
  intros Hmaze Hmove. induction n as [|n (s & Hs & Hms & Hmv)].
  - by exists s0.
  - destruct (step_inside s Hms Hmv) as (s' & Hstep & ? & ?).
    exists s'. simpl. rewrite Hs. done.
Qed.

(** A trial in such a grid raises nothing and prints cells of the
    grid. *)
Lemma enclosed_verdict s0 n o :
  maze s0 = m → can_move m R C (player s0) → printed s0 = [] →
  verdict_at s0 n = Some o →
  (o = Solved (path_of o) (goal m) ∨ o = Unsolvable (path_of o))
  ∧ Forall (λ e : Event, in_grid R C e.1) (path_of o).
Proof.
  intros Hmaze Hmove Hprinted Ho.
  destruct (verdict_at_path s0 n o Ho) as (s & Hs & Hpath).
  destruct (trajectory_inside s0 n Hmaze Hmove) as (s1 & Hs1 & Hms & Hmv).
  assert (s1 = s) as -> by congruence.
  split.
  - unfold verdict_at in Ho. rewrite Hs in Ho.
    destruct (MazeManager.is_player_located_at_goal s) eqn:Hgoal.
    + injection Ho as <-. left. simpl. f_equal.
      unfold MazeManager.is_player_located_at_goal, Player.is_located_at in Hgoal.
      apply bool_decide_eq_true in Hgoal. by rewrite Hgoal, Hms.
    + destruct (decide (_ ∈ _)); [injection Ho as <-; by right|].
      destruct (step_inside s Hms Hmv) as (s' & Hstep & _).
      by rewrite Hstep in Ho.
  - destruct (after_printed s0 n s Hs) as (events & Hpr & Hlen & Hev).
    rewrite Hprinted in Hpr. simpl in Hpr. rewrite Hpath, Hpr.
    apply Forall_lookup. intros i e Hi.
    assert (i < n)%nat as Hlt by (apply lookup_lt_Some in Hi; lia).
    destruct (trajectory_inside s0 i Hmaze Hmove) as (si & Hsi & _ & Hin & _).
    destruct (trajectory_inside s0 (S i) Hmaze Hmove) as (si' & Hsi' & _).
    rewrite (Hev i si si' Hlt Hsi Hsi') in Hi. injection Hi as <-.
    by apply inside_in_grid.
Qed.

End Enclosed.

(** C4, amended.  For any maze with [R] rows of at most [C] columns and
    any player, the trial ends (solved, unsolvable, or on a lookup that
    raises) after some number [n] of transitions, whatever fuel above [n]
    the loop is given, and [n ≤ 16 R C].  Every iteration records a pose
    that was not in the history, and has looked up the cell on the right
    of the player without raising: that cell is at one of the
    [2 R * 2 C] positions that index the floor, rows [-R .. R) and
    columns [-C .. C), so the poses are drawn from [16 R C] pairs of a
    position and an orientation.  When every position printed, that is
    every recorded position, is a cell of the grid, [n ≤ 4 R C].  That is
    the case when all rows have [C] columns, the border of the grid is
    made of walls and the player starts on a cell that is not a wall and
    has a neighbour that is not a wall: the trial then ends as solved or
    as unsolvable with [n ≤ 4 R C]. *)
Theorem run_terminates (m : Maze) (p : Player) (R C : nat) :
  length (floor m) = R →
  Forall (λ row, (length row ≤ C)%nat) (floor m) →
  ∃ n o,
    (∀ fuel, (n < fuel)%nat →
             MazeManager.process_players_trial fuel (new_manager m p) = o)
    ∧ o ≠ OutOfFuel
    ∧ length (path_of o) = n
    ∧ size (visited (new_manager m p) n) = n
    ∧ (∀ q, q ∈ visited (new_manager m p) n →
         - Z.of_nat R - 1 ≤ x (pose_position q) ≤ Z.of_nat R
         ∧ - Z.of_nat C - 1 ≤ y (pose_position q) ≤ Z.of_nat C
         ∧ - Z.of_nat R
           ≤ x (pose_position q
                +p EOrientation.value
                     (EOrientation.turn_to_the_right (pose_orientation q)))
           < Z.of_nat R
         ∧ - Z.of_nat C
           ≤ y (pose_position q
                +p EOrientation.value
                     (EOrientation.turn_to_the_right (pose_orientation q)))
           < Z.of_nat C)
    ∧ (n ≤ 16 * R * C)%nat
    ∧ (Forall (λ e : Event, in_grid R C e.1) (path_of o) →
       (n ≤ 4 * R * C)%nat)
    ∧ (enclosed m R C → can_move m R C p →
       (n ≤ 4 * R * C)%nat
       ∧ (o = Solved (path_of o) (goal m) ∨ o = Unsolvable (path_of o))).
Proof.
  intros HR HC.
  destruct (trial_ends m p R C HR HC)
    as (n & o & Hrun & Hended & Hlen & Hsize & Hnear & Hn & Hgrid).
  exists n, o. repeat (split; [done|]).
  intros Hwalls Hmove.
  destruct (run_stops _ _ o (Hrun (S n) (Nat.lt_succ_diag_r n)) Hended)
    as (k & s & _ & Hk & _).
  destruct (enclosed_verdict m R C Hwalls (new_manager m p) k o)
    as [Hverdict Hcells]; [done..|].
  split; [by apply Hgrid|done].
Qed.

Lemma run_terminates_witness :
  ∃ n o,
    (∀ fuel, (n < fuel)%nat →
       MazeManager.process_players_trial fuel
         (new_manager Demo.maze3_maze (mkPlayer (mkPoint2D 3 2) North)) = o)
    ∧ o ≠ OutOfFuel
    ∧ length (path_of o) = n
    ∧ (n ≤ 120)%nat
    ∧ (o = Solved (path_of o) (mkPoint2D 4 2) ∨ o = Unsolvable (path_of o)).
Proof.
  destruct (run_terminates Demo.maze3_maze (mkPlayer (mkPoint2D 3 2) North) 6 5)
    as (n & o & Hrun & Hended & Hlen & _ & _ & _ & _ & Henclosed).
  - reflexivity.
  - repeat constructor.
  - destruct Henclosed as [Hn Hverdict].
    + split; [reflexivity|]. split; [repeat constructor|].
      intros [px py] [Hx Hy] Hborder. simpl in Hx, Hy, Hborder.
      assert (px = 0 ∨ px = 1 ∨ px = 2 ∨ px = 3 ∨ px = 4 ∨ px = 5) as Hpx
        by lia.
      assert (py = 0 ∨ py = 1 ∨ py = 2 ∨ py = 3 ∨ py = 4) as Hpy by lia.
      destruct Hpx as [->|[->|[->|[->|[->| ->]]]]],
          Hpy as [->|[->|[->|[->| ->]]]];
        first [reflexivity | exfalso; lia].
    + split; [unfold inside; simpl; lia|].
      split; [by exists Start|].
      exists North. by exists Normal.
    + exists n, o. repeat split;
        [exact Hrun|exact Hended|exact Hlen|exact Hn|exact Hverdict].
Defined.

(** * Further properties of the code *)

(** ** Orientations and their vectors *)

(** X1.  The turns of [EOrientation] form the rotations of a square:
    four right turns are the identity, a left turn undoes a right turn and
    the other way round, [turn_around] is two right turns as well as two
    left turns and undoes itself, and a left turn is three right turns.
    No turn leaves an orientation where it was.  For a [Player] this
    means: right then left, left then right, and twice around, give the
    player back. *)
Theorem turns_are_rotations (o : EOrientation) (p : Player) :
  let right := EOrientation.turn_to_the_right in
  let left := EOrientation.turn_to_the_left in
  let around := EOrientation.turn_around in
  right (right (right (right o))) = o
  ∧ left (right o) = o ∧ right (left o) = o
  ∧ around o = right (right o) ∧ around o = left (left o)
  ∧ around (around o) = o
  ∧ left o = right (right (right o))
  ∧ (right o ≠ o ∧ left o ≠ o ∧ around o ≠ o ∧ right o ≠ left o)
  ∧ Player.turn_to_the_left (Player.turn_to_the_right p) = p
  ∧ Player.turn_to_the_right (Player.turn_to_the_left p) = p
  ∧ Player.turn_around (Player.turn_around p) = p
  ∧ Player.turn_around p
    = Player.turn_to_the_right (Player.turn_to_the_right p).
Proof. destruct p as [pos o']. by destruct o, o'. Qed.

(** X2.  The values of the four orientations are four different unit
    vectors along the axes.  A right turn maps the vector [(a, b)] to
    [(b, -a)], a left turn to [(-b, a)], and [turn_around] to
    [(-a, -b)].  Hence a step never leaves the player where it is, and a
    step, an about-face and another step bring it back to its
    position. *)
Theorem orientation_vectors (o o' : EOrientation) (p : Player) :
  Z.abs (vx (EOrientation.value o)) + Z.abs (vy (EOrientation.value o)) = 1
  ∧ (EOrientation.value o = EOrientation.value o' → o = o')
  ∧ EOrientation.value (EOrientation.turn_to_the_right o)
    = mkVector2D (vy (EOrientation.value o)) (- vx (EOrientation.value o))
  ∧ EOrientation.value (EOrientation.turn_to_the_left o)
    = mkVector2D (- vy (EOrientation.value o)) (vx (EOrientation.value o))
  ∧ EOrientation.value (EOrientation.turn_around o)
    = mkVector2D (- vx (EOrientation.value o)) (- vy (EOrientation.value o))
  ∧ position (Player.step_forward p) ≠ position p
  ∧ position (Player.step_forward (Player.turn_around (Player.step_forward p)))
    = position p.
Proof.
  split; [by destruct o|]. split; [by destruct o, o'|].
  split; [by destruct o|]. split; [by destruct o|]. split; [by destruct o|].
  destruct p as [[px py] po]. split.
  - destruct po; simpl; unfold point_add; simpl; intros [=]; lia.
  - destruct po; simpl; unfold point_add; simpl; f_equal; lia.
Qed.

(** ** Glyphs *)

(** X3.  [EFloor.of] and [EFloor.to_char] are inverse to each other on the
    four glyphs: [of (to_char kind)] is [kind]; [of c] returns a kind
    exactly when [c] is the glyph of that kind; it raises exactly for the
    characters other than the space, [*], [o] and [x], with the message
    naming the character; and different kinds have different glyphs. *)
Theorem glyph_codec (c : N) (kind kind' : EFloor) :
  EFloor.of_ (EFloor.to_char kind) = inl kind
  ∧ (EFloor.of_ c = inl kind ↔ c = EFloor.to_char kind)
  ∧ (EFloor.of_ c = inr (EFloor.invalid_character c)
     ↔ c ∉ [32; 42; 111; 120]%N)
  ∧ (∀ msg, EFloor.of_ c = inr msg → msg = EFloor.invalid_character c)
  ∧ (EFloor.to_char kind = EFloor.to_char kind' → kind = kind').
Proof.
  split; [apply of_to_char|]. split.
  { split; [apply of_inl|]. intros ->. apply of_to_char. }
  split.
  { split.
    - intros H Hin. destruct (of_inr c _ H) as [_ Hne].
      repeat (apply elem_of_cons in Hin as [->|Hin]);
        [by destruct (Hne Normal)|by destruct (Hne Wall)
        |by destruct (Hne Start)|by destruct (Hne Goal)
        |by apply elem_of_nil in Hin].
    - intros Hout. apply of_not_glyph. intros k ->. apply Hout.
      destruct k; simpl; set_solver. }
  split; [intros msg H; by destruct (of_inr c msg H)|].
  by destruct kind, kind'.
Qed.

(** ** Finding the markers *)

Section FindXY.

Variable kind : EFloor.

Lemma rows_holding_head_gen (rows : list (list EFloor)) : ∀ g : nat → nat,
  head (fst <$> filter (λ ir : nat * list EFloor, kind ∈ ir.2)
                  (imap (λ i row, (g i, row)) rows))
  = (λ ir : nat * list EFloor, g ir.1)
      <$> list_find (λ row, kind ∈ row) rows.
Proof.
  induction rows as [|row rows IH]; intros g; [done|].
  rewrite imap_cons. cbn [list_find]. rewrite filter_cons. simpl.
  destruct (decide (kind ∈ row)); [done|].
  specialize (IH (g ∘ S)). unfold compose in *. rewrite IH.
  by destruct (list_find _ rows) as [[i r]|].
Qed.

Lemma rows_holding_head (rows : list (list EFloor)) :
  head (Maze.rows_holding kind rows)
  = fst <$> list_find (λ row, kind ∈ row) rows.
Proof.
  unfold Maze.rows_holding.
  etrans; [exact (rows_holding_head_gen rows id)|].
  by destruct (list_find _ rows) as [[i r]|].
Qed.

Lemma _find_xy_eq (rows : list (list EFloor)) :
  Maze._find_xy kind rows
  = ir ← list_find (λ row, kind ∈ row) rows;
    jc ← list_find (λ cell, cell = kind) ir.2;
    Some (mkPoint2D (Z.of_nat ir.1) (Z.of_nat jc.1)).
Proof.
  unfold Maze._find_xy, Maze.list_index. rewrite rows_holding_head.
  destruct (list_find _ rows) as [[i row]|] eqn:Hfind; [|done]. simpl.
  apply list_find_Some in Hfind as (Hrow & _).
  rewrite index_nonneg, Nat2Z.id, Hrow by lia. simpl.
  by destruct (list_find _ row) as [[j cell]|].
Qed.

End FindXY.

(** X4.  [_find_xy kind floor] returns the first cell of the given kind
    in reading order: the first row that holds the kind and the first
    column of the kind in that row, as non-negative coordinates.  It
    fails, on indexing an empty list, exactly when no row holds the
    kind. *)
Theorem _find_xy_first (kind : EFloor) (rows : list (list EFloor)) :
  match Maze._find_xy kind rows with
  | Some pos =>
      ∃ (i j : nat) row,
        pos = mkPoint2D (Z.of_nat i) (Z.of_nat j)
        ∧ rows !! i = Some row ∧ row !! j = Some kind
        ∧ (∀ i' row', (i' < i)%nat → rows !! i' = Some row' → kind ∉ row')
        ∧ (∀ j', (j' < j)%nat → row !! j' ≠ Some kind)
  | None => ∀ row, row ∈ rows → kind ∉ row
  end.
Proof.
  rewrite _find_xy_eq.
  destruct (list_find _ rows) as [[i row]|] eqn:Hrows; simpl.
  - apply list_find_Some in Hrows as (Hrow & Hin & Hfirst).
    destruct (list_find _ row) as [[j cell]|] eqn:Hcell; simpl.
    + apply list_find_Some in Hcell as (Hcell & -> & Hleast).
      exists i, j, row. split; [done|]. split; [done|]. split; [done|].
      split.
      * intros i' row' Hlt Hrow'. by apply (Hfirst i').
      * intros j' Hlt Hj'. by apply (Hleast j' kind).
    + apply list_find_None in Hcell. rewrite Forall_forall in Hcell.
      by destruct (Hcell kind Hin).
  - apply list_find_None in Hrows. rewrite Forall_forall in Hrows.
    intros row Hrow. by apply Hrows.
Qed.

(** ** What parsing keeps of the text *)

Section ComprehensionInversion.

Context {A B E : Type} (f : A → B + E).

Lemma comprehension_inr l e :
  comprehension f l = inr e → ∃ a, a ∈ l ∧ f a = inr e.
Proof.
  induction l as [|a l IH]; [done|]. simpl.
  destruct (f a) as [b|e'] eqn:Ha.
  - destruct (comprehension f l) as [bs|e']; [done|].
    intros [= <-]. destruct (IH eq_refl) as (a' & ? & ?).
    exists a'. split; [by right|done].
  - intros [= <-]. exists a. split; [by left|done].
Qed.

(** A comprehension over a partial inverse of [g] succeeds exactly on the
    images of [g]. *)
Lemma comprehension_inl_iff (g : B → A) :
  (∀ a b, f a = inl b ↔ a = g b) →
  ∀ l bs, comprehension f l = inl bs ↔ l = g <$> bs.
Proof.
  intros Hfg. induction l as [|a l IH]; intros bs.
  - destruct bs; simpl; split; intros; by simplify_eq.
  - simpl. destruct (f a) as [b|e] eqn:Ha.
    + apply Hfg in Ha as ->.
      destruct (comprehension f l) as [bs'|e] eqn:Hl.
      * pose proof (proj1 (IH bs') eq_refl) as ->. split.
        -- by intros [= <-].
        -- destruct bs as [|b0 bs0]; [done|]. rewrite fmap_cons.
           intros [= Hb Hbs]. apply Hfg in Hb.
           rewrite (proj2 (Hfg (g b) b) eq_refl) in Hb. injection Hb as <-.
           apply IH in Hbs. by simplify_eq.
      * split; [done|]. destruct bs as [|b0 bs0]; [done|]. rewrite fmap_cons.
        intros [= _ Hbs]. by apply IH in Hbs.
    + split; [done|]. destruct bs as [|b0 bs0]; [done|]. rewrite fmap_cons.
      intros [= Hb _]. apply Hfg in Hb. congruence.
Qed.

End ComprehensionInversion.

Lemma of_inl_iff c kind : EFloor.of_ c = inl kind ↔ c = EFloor.to_char kind.
Proof. split; [apply of_inl|intros ->; apply of_to_char]. Qed.

(** The grid that the two comprehensions of [parse] build holds the
    kinds of the characters, line by line. *)
Lemma floors_of_lines (lines : list Py.str) (floors : list (list EFloor)) :
  comprehension (comprehension EFloor.of_) lines = inl floors
  ↔ lines = (λ row : list EFloor, EFloor.to_char <$> row) <$> floors.
Proof.
  apply (comprehension_inl_iff _ (λ row : list EFloor, EFloor.to_char <$> row)).
  apply (comprehension_inl_iff _ EFloor.to_char), of_inl_iff.
Qed.

(** The lines hold the characters of the text that are no line
    boundaries, in the order of the text. *)
Lemma splitlines_from_concat n : ∀ s cur,
  (length s ≤ n)%nat →
  concat (Py.splitlines_from cur s)
  = rev cur ++ filter (λ c, Py.is_linebreak c = false) s.
Proof.
  induction n as [|n IH]; intros s cur Hlen.
  - destruct s; [|simpl in Hlen; lia]. rewrite filter_nil, app_nil_r.
    destruct cur as [|c cur]; [done|].
    change (Py.splitlines_from (c :: cur) []) with [rev (c :: cur)].
    simpl concat. by rewrite app_nil_r.
  - destruct s as [|c rest]; [by apply (IH [] cur); simpl; lia|].
    simpl in Hlen. destruct (Py.is_linebreak c) eqn:Hc.
    + rewrite splitlines_from_break, filter_cons_False by congruence.
      rewrite concat_cons. f_equal. unfold after_break.
      destruct rest as [|c' rest']; [done|].
      destruct (bool_decide (c = 13%N) && bool_decide (c' = 10%N)) eqn:Hcr.
      * apply andb_true_iff in Hcr as [_ ->%bool_decide_eq_true].
        rewrite filter_cons_False by done.
        rewrite (IH rest' []) by (simpl in Hlen; lia). done.
      * rewrite (IH (c' :: rest') []) by lia. done.
    + rewrite splitlines_from_plain, filter_cons_True by done.
      rewrite (IH rest (c :: cur)) by lia.
      by rewrite (rev_cons_app c cur), <- app_assoc.
Qed.

Lemma splitlines_concat s :
  concat (Py.splitlines s) = filter (λ c, Py.is_linebreak c = false) s.
Proof. apply (splitlines_from_concat (length s) s []). lia. Qed.

Lemma elem_of_concat {A} (a : A) (ls : list (list A)) :
  a ∈ concat ls ↔ ∃ l, l ∈ ls ∧ a ∈ l.
Proof.
  induction ls as [|l ls IH]; simpl.
  - split; [by intros ?%elem_of_nil|by intros (? & ?%elem_of_nil & _)].
  - rewrite elem_of_app, IH. split.
    + intros [?|(l' & ? & ?)]; [exists l|exists l']; split;
        first [by left|by right|done].
    + intros (l' & [->|?]%elem_of_cons & ?); [by left|right; eauto].
Qed.

Lemma elem_of_splitlines s line c :
  line ∈ Py.splitlines s → c ∈ line → c ∈ s ∧ Py.is_linebreak c = false.
Proof.
  intros Hline Hc.
  assert (c ∈ concat (Py.splitlines s)) as Hin.
  { apply elem_of_concat. eauto. }
  rewrite splitlines_concat in Hin.
  by apply list_elem_of_filter in Hin as [? ?].
Qed.

Lemma splitlines_elem_of s c :
  c ∈ s → Py.is_linebreak c = false →
  ∃ line, line ∈ Py.splitlines s ∧ c ∈ line.
Proof.
  intros Hc Hbreak.
  assert (c ∈ concat (Py.splitlines s)) as Hin.
  { rewrite splitlines_concat. by apply list_elem_of_filter. }
  apply elem_of_concat in Hin as (line & ? & ?). eauto.
Qed.

Lemma to_char_inj (kind kind' : EFloor) :
  EFloor.to_char kind = EFloor.to_char kind' → kind = kind'.
Proof. by destruct kind, kind'. Qed.

Lemma _find_xy_is_Some kind rows row :
  row ∈ rows → kind ∈ row → is_Some (Maze._find_xy kind rows).
Proof.
  intros Hrow Hkind. rewrite _find_xy_eq.
  destruct (list_find (λ row, kind ∈ row) rows) as [[i r]|] eqn:Hfind.
  - simpl. apply list_find_Some in Hfind as (_ & Hin & _).
    destruct (list_find (λ cell, cell = kind) r) as [[j c]|] eqn:Hc;
      [by eexists|].
    apply list_find_None in Hc. rewrite Forall_forall in Hc.
    by destruct (Hc kind Hin).
  - apply list_find_None in Hfind. rewrite Forall_forall in Hfind.
    by destruct (Hfind row Hrow).
Qed.

(** A glyph of the text is a cell of the grid built from its lines. *)
Lemma glyph_in_floors s floors kind :
  Py.splitlines s = (λ row : list EFloor, EFloor.to_char <$> row) <$> floors →
  EFloor.to_char kind ∈ s →
  ∃ row, row ∈ floors ∧ kind ∈ row.
Proof.
  intros Hlines Hin.
  destruct (splitlines_elem_of s _ Hin (glyph_not_linebreak kind))
    as (line & Hline & Hc).
  rewrite Hlines in Hline.
  apply list_elem_of_fmap in Hline as (row & -> & Hrow).
  apply list_elem_of_fmap in Hc as (kind' & ->%to_char_inj & Hkind).
  eauto.
Qed.

Lemma parse_not_validated s :
  (EFloor.to_char Start ∉ s →
   Maze.parse s = inr (SystemExit Maze.cannot_find_start 1))
  ∧ (EFloor.to_char Start ∈ s → EFloor.to_char Goal ∉ s →
     Maze.parse s = inr (SystemExit Maze.cannot_find_goal 1)).
Proof.
  unfold Maze.parse, Maze._validate, Py.contains. split.
  - intros H. by rewrite bool_decide_eq_false_2.
  - intros Ho Hx. rewrite bool_decide_eq_true_2 by done.
    by rewrite bool_decide_eq_false_2.
Qed.

(** With both markers in the text, [parse] ends as the comprehension
    does: the two searches for the markers find them. *)
Lemma parse_validated s :
  EFloor.to_char Start ∈ s → EFloor.to_char Goal ∈ s →
  match comprehension (comprehension EFloor.of_) (Py.splitlines s) with
  | inr msg => Maze.parse s = inr (ValueError msg)
  | inl floors => ∃ start_at goal_at,
      Maze.parse s = inl (mkMaze floors start_at goal_at)
  end.
Proof.
  intros Ho Hx. unfold Maze.parse, Maze._validate, Py.contains.
  rewrite !bool_decide_eq_true_2 by done. simpl negb. cbv iota.
  destruct (comprehension _ _) as [floors|msg] eqn:Hfloors; [|done].
  apply floors_of_lines in Hfloors.
  destruct (glyph_in_floors s floors Start Hfloors Ho) as (row_o & ? & ?).
  destruct (glyph_in_floors s floors Goal Hfloors Hx) as (row_x & ? & ?).
  destruct (_find_xy_is_Some Start floors row_o) as [start_at ->]; [done..|].
  destruct (_find_xy_is_Some Goal floors row_x) as [goal_at ->]; [done..|].
  eauto.
Qed.

(** A text of glyphs and line boundaries makes no comprehension raise,
    and a comprehension raises for a character of the text that is
    neither. *)
Lemma lines_raise s msg :
  comprehension (comprehension EFloor.of_) (Py.splitlines s) = inr msg →
  ∃ c, c ∈ s ∧ msg = EFloor.invalid_character c
       ∧ (∀ kind, c ≠ EFloor.to_char kind) ∧ Py.is_linebreak c = false.
Proof.
  intros (line & Hline & Hraise)%comprehension_inr.
  apply comprehension_inr in Hraise as (c & Hc & Hof).
  destruct (elem_of_splitlines s line c Hline Hc) as [? ?].
  destruct (of_inr c msg Hof) as [-> ?]. eauto 6.
Qed.

(** X5.  The ways [parse] ends, for every text.  It never ends on the
    [IndexError] of an empty search result in [_find_xy]: after
    [_validate] both markers are in the text and hence in the grid.  It
    returns a maze exactly when the text holds an ['o'] and an ['x'] and
    only glyphs and line boundaries.  A [ValueError] names a character
    of the text that is neither, in a text with both markers; an exit has
    status 1 and a marker is missing. *)
Theorem parse_outcomes (s : Py.str) :
  Maze.parse s ≠ inr IndexError
  ∧ ((∃ m, Maze.parse s = inl m)
     ↔ EFloor.to_char Start ∈ s ∧ EFloor.to_char Goal ∈ s
       ∧ Forall (λ c, (∃ kind, c = EFloor.to_char kind)
                      ∨ Py.is_linebreak c = true) s)
  ∧ (∀ msg, Maze.parse s = inr (ValueError msg) →
       EFloor.to_char Start ∈ s ∧ EFloor.to_char Goal ∈ s
       ∧ ∃ c, c ∈ s ∧ msg = EFloor.invalid_character c
              ∧ (∀ kind, c ≠ EFloor.to_char kind)
              ∧ Py.is_linebreak c = false)
  ∧ (∀ msg code, Maze.parse s = inr (SystemExit msg code) →
       code = 1
       ∧ (((EFloor.to_char Start ∉ s) ∧ msg = Maze.cannot_find_start)
          ∨ (EFloor.to_char Start ∈ s ∧ (EFloor.to_char Goal ∉ s)
             ∧ msg = Maze.cannot_find_goal))).
Proof.
  destruct (parse_not_validated s) as [Hno_o Hno_x].
  destruct (decide (EFloor.to_char Start ∈ s)) as [Ho|Ho].
  2:{ rewrite (Hno_o Ho). split; [done|]. split; [|split; [done|]].
      - split; [by intros [? ?]|by intros (? & _)].
      - intros msg code [= <- <-]. split; [done|by left]. }
  destruct (decide (EFloor.to_char Goal ∈ s)) as [Hx|Hx].
  2:{ rewrite (Hno_x Ho Hx). split; [done|]. split; [|split; [done|]].
      - split; [by intros [? ?]|by intros (_ & ? & _)].
      - intros msg code [= <- <-]. split; [done|by right]. }
  pose proof (parse_validated s Ho Hx) as Hparse.
  destruct (comprehension _ _) as [floors|msg] eqn:Hfloors.
  - destruct Hparse as (start_at & goal_at & ->).
    split; [done|]. split; [|done]. split; [|by eauto].
    intros _. split; [done|]. split; [done|].
    apply floors_of_lines in Hfloors. apply Forall_forall. intros c Hc.
    destruct (Py.is_linebreak c) eqn:Hbreak; [by right|left].
    destruct (splitlines_elem_of s c Hc Hbreak) as (line & Hline & Hin).
    rewrite Hfloors in Hline.
    apply list_elem_of_fmap in Hline as (row & -> & _).
    apply list_elem_of_fmap in Hin as (kind & -> & _). eauto.
  - rewrite Hparse. destruct (lines_raise s msg Hfloors)
      as (c & Hc & -> & Hglyph & Hbreak).
    split; [done|]. split; [|split; [|done]].
    + split; [by intros [? ?]|]. intros (_ & _ & Hall).
      rewrite Forall_forall in Hall.
      destruct (Hall c Hc) as [[kind ->]|?]; [by destruct (Hglyph kind)|].
      congruence.
    + intros msg [= <-]. eauto 8.
Qed.

(** The position [_find_xy] returns holds the kind, and is the first in
    reading order that does. *)
Lemma _find_xy_cell (m : Maze) kind pos :
  Maze._find_xy kind (floor m) = Some pos →
  floor_at m pos = Some kind
  ∧ (0 ≤ x pos < Z.of_nat (length (floor m))) ∧ 0 ≤ y pos
  ∧ ∀ pos', floor_at m pos' = Some kind → 0 ≤ x pos' → 0 ≤ y pos' →
      x pos < x pos' ∨ (x pos = x pos' ∧ y pos ≤ y pos').
Proof.
  intros Hpos. rewrite _find_xy_eq in Hpos.
  destruct (list_find _ (floor m)) as [[i row]|] eqn:Hrows; [|done].
  simpl in Hpos.
  destruct (list_find _ row) as [[j cell]|] eqn:Hcell; [|done].
  injection Hpos as <-. simpl.
  apply list_find_Some in Hrows as (Hrow & _ & Hfirst).
  apply list_find_Some in Hcell as (Hcell & -> & Hleast).
  pose proof (lookup_lt_Some _ _ _ Hrow).
  unfold floor_at. simpl.
  rewrite index_nonneg, Nat2Z.id, Hrow by lia. simpl.
  rewrite index_nonneg, Nat2Z.id by lia.
  split; [done|]. split; [lia|]. split; [lia|].
  intros [x' y'] Hpos' Hx' Hy'. simpl in *.
  rewrite index_nonneg in Hpos' by done.
  destruct (floor m !! Z.to_nat x') as [row'|] eqn:Hrow'; [|done].
  simpl in Hpos'. rewrite index_nonneg in Hpos' by done.
  destruct (decide (Z.to_nat x' < i)%nat) as [Hlt|Hge].
  { destruct (Hfirst _ _ Hrow' Hlt).
    by apply list_elem_of_lookup_2 with (Z.to_nat y'). }
  destruct (decide (Z.to_nat x' = i)) as [Heq|Hne]; [|lia].
  right. split; [lia|]. subst i. assert (row' = row) as -> by congruence.
  destruct (decide (Z.to_nat y' < j)%nat) as [Hlt|?]; [|lia].
  by destruct (Hleast _ _ Hpos' Hlt).
Qed.

(** X6.  The markers of a parsed maze.  [start] and [goal] are cells of
    the grid with non-negative coordinates; the cell at [start] is the
    start marker and the cell at [goal] the goal marker, each the first
    of its kind in reading order; the two positions differ, so that a
    player put on the start is not at the goal, and the start cell is
    not a wall. *)
Theorem parsed_maze_markers (text : Py.str) (m : Maze) :
  Maze.parse text = inl m →
  floor_at m (start m) = Some Start
  ∧ floor_at m (goal m) = Some Goal
  ∧ (0 ≤ x (start m) < Z.of_nat (length (floor m)))
  ∧ (0 ≤ x (goal m) < Z.of_nat (length (floor m)))
  ∧ 0 ≤ y (start m) ∧ 0 ≤ y (goal m)
  ∧ start m ≠ goal m
  ∧ (∀ pos, floor_at m pos = Some Start → 0 ≤ x pos → 0 ≤ y pos →
       x (start m) < x pos
       ∨ (x (start m) = x pos ∧ y (start m) ≤ y pos))
  ∧ (∀ pos, floor_at m pos = Some Goal → 0 ≤ x pos → 0 ≤ y pos →
       x (goal m) < x pos
       ∨ (x (goal m) = x pos ∧ y (goal m) ≤ y pos))
  ∧ (∀ facing,
       MazeManager.is_player_located_at_goal
         (new_manager m (mkPlayer (start m) facing)) = false)
  ∧ open_at m (start m).
Proof.
  intros (_ & Hstart & Hgoal)%parse_inl.
  destruct (_find_xy_cell m Start _ Hstart) as (Hs & ? & ? & Hs_first).
  destruct (_find_xy_cell m Goal _ Hgoal) as (Hg & ? & ? & Hg_first).
  assert (start m ≠ goal m) as Hne by (intros Heq; congruence).
  repeat (split; [done|]). split.
  - intros facing. by apply bool_decide_eq_false.
  - by exists Start.
Qed.

Lemma parsed_maze_markers_witness :
  floor_at Demo.open_column_maze (mkPoint2D 1 0) = Some Start
  ∧ floor_at Demo.open_column_maze (mkPoint2D 2 2) = Some Goal.
Proof.
  destruct (parsed_maze_markers Demo.open_column Demo.open_column_maze)
    as (Hs & Hg & _); [vm_compute; reflexivity|].
  split; [exact Hs|exact Hg].
Defined.

Lemma fmap_concat {A B} (f : A → B) (ls : list (list A)) :
  f <$> concat ls = concat ((λ l : list A, f <$> l) <$> ls).
Proof.
  induction ls as [|l ls IH]; [done|].
  simpl concat. by rewrite fmap_app, IH.
Qed.

(** X7.  What a parsed maze keeps of its text.  The rows of the grid are
    the lines of the text, glyph by glyph; read row after row, the grid
    holds the characters of the text that are no line boundaries, in
    their order; and the rendering of the maze is the text with its lines
    joined by the separator, whatever boundaries the text had. *)
Theorem parse_keeps_text (text linesep : Py.str) (m : Maze) :
  Maze.parse text = inl m →
  (λ row : list EFloor, EFloor.to_char <$> row) <$> floor m
  = Py.splitlines text
  ∧ EFloor.to_char <$> concat (floor m)
    = filter (λ c, Py.is_linebreak c = false) text
  ∧ Maze.to_string linesep m = Py.join linesep (Py.splitlines text)
  ∧ length (concat (floor m))
    = length (filter (λ c, Py.is_linebreak c = false) text).
Proof.
  intros (Hfloors%floors_of_lines & _)%parse_inl.
  assert (EFloor.to_char <$> concat (floor m)
          = filter (λ c, Py.is_linebreak c = false) text) as Hchars.
  { by rewrite fmap_concat, <- Hfloors, splitlines_concat. }
  split; [done|]. split; [done|]. split.
  - unfold Maze.to_string. by rewrite Hfloors.
  - by rewrite <- Hchars, length_fmap.
Qed.

Lemma parse_keeps_text_witness :
  Maze.to_string LF Demo.open_column_maze
  = Py.join LF (Py.splitlines Demo.open_column).
Proof.
  destruct (parse_keeps_text Demo.open_column LF Demo.open_column_maze)
    as (_ & _ & H & _); [vm_compute; reflexivity|].
  exact H.
Defined.

(** *** The rendering, line by line *)

(** Joined lines split back into themselves, but for an empty last
    line. *)
Lemma splitlines_join_all sep (rows : list Py.str) :
  sep = LF ∨ sep = CRLF →
  Forall (Forall (λ c, Py.is_linebreak c = false)) rows →
  Py.splitlines (Py.join sep rows)
  = if decide (last rows = Some []) then removelast rows else rows.
Proof.
  intros Hsep. unfold Py.splitlines.
  induction rows as [|l rows IH]; intros Hrows; [done|].
  inversion_clear Hrows as [|?? Hl Hrest].
  destruct rows as [|l2 rows].
  - destruct l as [|c l]; [done|].
    destruct (decide (last [c :: l] = Some [])) as [Hlast|_]; [done|].
    by apply (splitlines_join sep [c :: l] Hsep); [constructor|].
  - change (Py.join sep (l :: l2 :: rows))
      with (l ++ sep ++ Py.join sep (l2 :: rows)).
    rewrite splitlines_from_line, app_nil_r by done.
    rewrite splitlines_from_linesep, rev_involutive by done.
    rewrite (IH Hrest).
    change (last (l :: l2 :: rows)) with (last (l2 :: rows)).
    by destruct (decide (last (l2 :: rows) = Some [])).
Qed.

Lemma _find_xy_removelast kind (rows : list (list EFloor)) :
  last rows = Some [] →
  Maze._find_xy kind (removelast rows) = Maze._find_xy kind rows.
Proof.
  intros [rows' ->]%last_Some. rewrite removelast_last, !_find_xy_eq.
  destruct (list_find (λ row, kind ∈ row) rows') as [[i row]|] eqn:Hfind.
  - by rewrite (list_find_app_l _ rows' [[]] i row Hfind).
  - rewrite (list_find_app_r _ rows' [[]] Hfind). simpl.
    destruct (decide (kind ∈ [])) as [Hin|_]; [|done].
    by apply elem_of_nil in Hin.
Qed.

Lemma to_string_holds (linesep : Py.str) (m : Maze) kind pos :
  Maze._find_xy kind (floor m) = Some pos →
  EFloor.to_char kind ∈ Maze.to_string linesep m.
Proof.
  intros Hpos. apply _find_xy_Some in Hpos as (row & Hrow & Hkind).
  unfold Maze.to_string.
  apply (elem_of_join _ _ (EFloor.to_char <$> row)).
  - by apply (list_elem_of_fmap_2 (fmap EFloor.to_char)).
  - by apply list_elem_of_fmap_2.
Qed.

(** X8.  Rendering a parsed maze and parsing the rendering, with either
    line separator, gives the same maze but for one thing: an empty last
    row of the grid is left out, once.  The lines of the rendering are
    the rows that are kept, and start and goal are the same. *)
Theorem round_trip_drops_empty_last_row
  (text linesep : Py.str) (m : Maze) :
  linesep = LF ∨ linesep = CRLF →
  Maze.parse text = inl m →
  let kept :=
    if decide (last (floor m) = Some []) then removelast (floor m)
    else floor m in
  Py.splitlines (Maze.to_string linesep m)
  = (λ row : list EFloor, EFloor.to_char <$> row) <$> kept
  ∧ Maze.parse (Maze.to_string linesep m)
    = inl (mkMaze kept (start m) (goal m)).
Proof.
  intros Hsep Hparse kept.
  assert (Py.splitlines (Maze.to_string linesep m)
          = (λ row : list EFloor, EFloor.to_char <$> row) <$> kept) as Hlines.
  { unfold Maze.to_string. rewrite splitlines_join_all; [|done|].
    2:{ apply Forall_fmap, Forall_forall. intros row _.
        apply Forall_fmap, Forall_forall. intros kind _.
        apply glyph_not_linebreak. }
    unfold kept. rewrite fmap_last.
    destruct (decide (last (floor m) = Some [])) as [Hlast|Hlast].
    - rewrite Hlast. simpl.
      apply last_Some in Hlast as [rows' ->].
      rewrite fmap_app, removelast_last. apply removelast_last.
    - destruct (decide (_ = Some [])) as [Hempty|_]; [|done].
      destruct (last (floor m)) as [[|kind row]|]; done. }
  split; [done|].
  destruct (parse_inl text m Hparse) as (_ & Hstart & Hgoal).
  assert (∀ kind, Maze._find_xy kind kept = Maze._find_xy kind (floor m))
    as Hkept.
  { intros kind. unfold kept.
    destruct (decide (last (floor m) = Some [])); [|done].
    by apply _find_xy_removelast. }
  pose proof (parse_validated (Maze.to_string linesep m)
                (to_string_holds linesep m Start _ Hstart)
                (to_string_holds linesep m Goal _ Hgoal)) as Hagain.
  rewrite Hlines, (proj2 (floors_of_lines _ kept) eq_refl) in Hagain.
  destruct Hagain as (start_at & goal_at & Hagain). rewrite Hagain.
  apply parse_inl in Hagain as (_ & Hs & Hg). simpl in Hs, Hg.
  rewrite Hkept in Hs, Hg. congruence.
Qed.

Lemma round_trip_drops_empty_last_row_witness :
  Maze.parse
    (Maze.to_string CRLF
       (mkMaze [[Start]; [Goal]; []] (mkPoint2D 0 0) (mkPoint2D 1 0)))
  = inl (mkMaze [[Start]; [Goal]] (mkPoint2D 0 0) (mkPoint2D 1 0)).
Proof.
  apply (round_trip_drops_empty_last_row [111; 10; 120; 10; 10]%N CRLF
           (mkMaze [[Start]; [Goal]; []] (mkPoint2D 0 0) (mkPoint2D 1 0))).
  - by right.
  - vm_compute. reflexivity.
Defined.

(** ** The trace of a run *)

Section Runs.

Variable s0 : MazeManager.

Lemma verdict_at_Solved_inv n path exit_at :
  verdict_at s0 n = Some (Solved path exit_at) →
  ∃ s, after s0 n = Some s ∧ path = printed s
       ∧ exit_at = goal (maze s0) ∧ position (player s) = goal (maze s0).
Proof.
  unfold verdict_at. destruct (after s0 n) as [s|] eqn:Hs; [|done].
  destruct (MazeManager.is_player_located_at_goal s) eqn:Hgoal.
  - intros [= <- <-]. exists s.
    apply bool_decide_eq_true in Hgoal.
    rewrite (after_maze s0 n s Hs) in Hgoal. done.
  - destruct (decide (_ ∈ _)); [done|].
    by destruct (MazeManager.choose_and_step s).
Qed.

Lemma verdict_at_Raised_inv n path :
  verdict_at s0 n = Some (Raised path) →
  ∃ s, after s0 n = Some s ∧ path = printed s
       ∧ MazeManager.is_player_located_at_goal s = false
       ∧ (Player.to_Pose (player s) ∉ visited s0 n)
       ∧ MazeManager.choose_and_step s = None.
Proof.
  unfold verdict_at. destruct (after s0 n) as [s|] eqn:Hs; [|done].
  destruct (MazeManager.is_player_located_at_goal s) eqn:Hgoal; [done|].
  destruct (decide (_ ∈ _)); [done|].
  destruct (MazeManager.choose_and_step s) eqn:Hstep; [done|].
  intros [= <-]. eauto 6.
Qed.

(** While no iteration has a verdict, no pose comes back. *)
Lemma poses_distinct n i j q :
  (∀ k, (k < n)%nat → verdict_at s0 k = None) →
  (i < j)%nat → (j < n)%nat →
  pose_at s0 i = Some q → pose_at s0 j ≠ Some q.
Proof.
  intros Hnone Hij Hj Hi Hq. unfold pose_at in Hq.
  destruct (after s0 j) as [sj|] eqn:Hsj; [|done]. injection Hq as <-.
  destruct (verdict_at_None_inv s0 j sj Hsj (Hnone j Hj)) as (_ & Hnew & _).
  apply Hnew, elem_of_visited. eauto.
Qed.

(** Each line printed names the position of the iteration that printed
    it, and leads to the pose of the next iteration. *)
Lemma trace_poses n s :
  after s0 n = Some s →
  ∃ events, printed s = printed s0 ++ events ∧ length events = n
    ∧ ∀ i e, events !! i = Some e →
        (∃ si, after s0 i = Some si ∧ position (player si) = e.1)
        ∧ pose_at s0 (S i) = Some (pose_after e).
Proof.
  intros Hs. destruct (after_printed s0 n s Hs) as (events & Hpr & Hlen & Hev).
  exists events. split; [done|]. split; [done|]. intros i e He.
  pose proof (lookup_lt_Some _ _ _ He) as Hi. rewrite Hlen in Hi.
  destruct (after_Some_earlier s0 n (S i) s Hs) as [si' Hsi']; [lia|].
  pose proof Hsi' as Hstep. simpl in Hstep.
  destruct (after s0 i) as [si|] eqn:Hsi; [|done]. simpl in Hstep.
  rewrite (Hev i si si' Hi Hsi Hsi') in He. injection He as <-.
  split; [by exists si|].
  destruct (choose_and_step_lands si si' Hstep) as (Hpos & _).
  unfold pose_at. rewrite Hsi'. simpl. f_equal.
  unfold pose_after, Player.to_Pose. simpl. by rewrite Hpos.
Qed.

Lemma pose_after_inj (e e' : Event) : pose_after e = pose_after e' → e = e'.
Proof.
  destruct e as [[a b] o], e' as [[a' b'] o']. unfold pose_after, point_add.
  simpl. intros [= Ha Hb <-]. do 2 f_equal; lia.
Qed.

End Runs.

(** X9.  The trial ends as solved exactly when the trajectory of the
    player reaches the goal with no pose coming back among the
    iterations before; a lookup that raises or a pose that comes back
    first prevents it.  The position reported is the goal of the maze,
    and the number of lines printed is the number of transitions to the
    first position that is the goal. *)
Theorem solved_iff_goal_reached (m : Maze) (p : Player) :
  ((∃ fuel path exit_at,
      MazeManager.process_players_trial fuel (new_manager m p)
      = Solved path exit_at)
   ↔ (∃ n s, after (new_manager m p) n = Some s
        ∧ position (player s) = goal m
        ∧ ∀ i j q, (i < j)%nat → (j < n)%nat →
            pose_at (new_manager m p) i = Some q →
            pose_at (new_manager m p) j ≠ Some q))
  ∧ (∀ fuel path exit_at,
       MazeManager.process_players_trial fuel (new_manager m p)
       = Solved path exit_at →
       exit_at = goal m
       ∧ (∃ s, after (new_manager m p) (length path) = Some s
               ∧ position (player s) = goal m)
       ∧ ∀ k sk, (k < length path)%nat →
           after (new_manager m p) k = Some sk →
           position (player sk) ≠ goal m).
Proof.
  set (s0 := new_manager m p).
  assert (∀ fuel path exit_at,
            MazeManager.process_players_trial fuel s0 = Solved path exit_at →
            ∃ n s, exit_at = goal m ∧ length path = n
              ∧ after s0 n = Some s ∧ position (player s) = goal m
              ∧ ∀ k, (k < n)%nat → verdict_at s0 k = None) as Hsolved.
  { intros fuel path exit_at Hrun.
    destruct (run_stops s0 fuel _ Hrun) as (n & s & _ & Hv & Hnone & Hs & Hpath);
      [done|].
    apply verdict_at_Solved_inv in Hv as (s' & Hs' & _ & -> & Hgoal).
    assert (s' = s) as -> by congruence.
    destruct (after_printed s0 n s Hs) as (events & Hpr & Hlen & _).
    simpl in Hpath, Hpr. exists n, s. rewrite Hpath, Hpr. done. }
  split; [split|].
  - intros (fuel & path & exit_at & Hrun).
    destruct (Hsolved _ _ _ Hrun) as (n & s & _ & _ & Hs & Hgoal & Hnone).
    exists n, s. split; [done|]. split; [done|].
    intros i j q Hij Hj. by apply (poses_distinct s0 n).
  - intros (n & s & Hs & Hgoal & Hfresh).
    assert (verdict_at s0 n = Some (Solved (printed s) (position (player s))))
      as Hn.
    { unfold verdict_at. rewrite Hs.
      unfold MazeManager.is_player_located_at_goal, Player.is_located_at.
      rewrite (after_maze s0 n s Hs). simpl.
      by rewrite bool_decide_eq_true_2. }
    destruct (least_below (λ k, is_Some (verdict_at s0 k)) n)
      as (k & Hk & [o Ho] & Hleast); [by eexists|].
    assert (∀ j, (j < k)%nat → verdict_at s0 j = None) as Hnone.
    { intros j Hj. specialize (Hleast j Hj).
      destruct (verdict_at s0 j); [|done]. by destruct Hleast. }
    exists (S k). rewrite process_players_trial_first_verdict.
    rewrite (first_verdict_reaches s0 k (S k) 0 o); [|done|done|lia].
    destruct (decide (k = n)) as [->|Hne].
    { rewrite Hn in Ho. injection Ho as <-. eauto. }
    destruct (after_Some_earlier s0 n k s Hs Hk) as [sk Hsk].
    unfold verdict_at in Ho. rewrite Hsk in Ho.
    destruct (MazeManager.is_player_located_at_goal sk).
    { injection Ho as <-. eauto. }
    destruct (decide (Player.to_Pose (player sk) ∈ visited s0 k)) as [Hin|_].
    { apply elem_of_visited in Hin as (i & Hi & Hpi).
      assert (k < n)%nat as Hlt by lia.
      destruct (Hfresh i k _ Hi Hlt Hpi).
      unfold pose_at. by rewrite Hsk. }
    destruct (MazeManager.choose_and_step sk) eqn:Hstep; [done|].
    assert (after s0 (S k) = None) as Hraise by (simpl; by rewrite Hsk).
    apply (after_None_later s0 (S k) (n - S k)) in Hraise.
    replace (S k + (n - S k))%nat with n in Hraise by lia. congruence.
  - intros fuel path exit_at Hrun.
    destruct (Hsolved _ _ _ Hrun) as (n & s & -> & <- & Hs & Hgoal & Hnone).
    split; [done|]. split; [eauto|]. intros k sk Hk Hsk.
    destruct (verdict_at_None_inv s0 k sk Hsk (Hnone k Hk)) as (Hnot & _).
    apply not_at_goal in Hnot. by rewrite (after_maze s0 k sk Hsk) in Hnot.
Qed.

(** X10.  The lines printed by a trial that ends are a walk.  The first
    line is at the position the player starts from; each further line is
    at the position one step from the line before, along the orientation
    that line names; no line is at the goal.  A solved trial reports the
    goal of the maze, which is one step from its last line along the
    orientation of that line, or the position of the player when nothing
    was printed.  An unsolvable trial has printed a line. *)
Theorem trace_is_walk (m : Maze) (p : Player) (fuel : nat) (o : Outcome) :
  MazeManager.process_players_trial fuel (new_manager m p) = o →
  o ≠ OutOfFuel →
  (∀ e, head (path_of o) = Some e → e.1 = position p)
  ∧ (∀ i e e', path_of o !! i = Some e → path_of o !! S i = Some e' →
       e'.1 = e.1 +p EOrientation.value e.2)
  ∧ (∀ e, e ∈ path_of o → e.1 ≠ goal m)
  ∧ (∀ path exit_at, o = Solved path exit_at →
       exit_at = goal m
       ∧ match last path with
         | Some e => e.1 +p EOrientation.value e.2 = goal m
         | None => position p = goal m
         end)
  ∧ (∀ path, o = Unsolvable path → path ≠ []).
Proof.
  intros Hrun Hended. set (s0 := new_manager m p) in *.
  destruct (run_stops s0 fuel o Hrun Hended)
    as (n & s & _ & Hv & Hnone & Hs & Hpath).
  destruct (trace_poses s0 n s Hs) as (events & Hpr & Hlen & Hev).
  simpl in Hpr. rewrite Hpath, Hpr. clear Hrun.
  assert (∀ q, pose_at s0 n = Some q → q = Player.to_Pose (player s)) as Hlast.
  { unfold pose_at. rewrite Hs. by intros q [= <-]. }
  split; [|split; [|split; [|split]]].
  - intros e He. rewrite head_lookup in He.
    destruct (Hev 0%nat e He) as [(si & Hsi & <-) _]. by injection Hsi as <-.
  - intros i e e' He He'.
    destruct (Hev i e He) as [_ Hnext].
    destruct (Hev (S i) e' He') as [(si' & Hsi' & <-) _].
    unfold pose_at in Hnext. rewrite Hsi' in Hnext. by injection Hnext as ->.
  - intros e [i He]%list_elem_of_lookup.
    pose proof (lookup_lt_Some _ _ _ He) as Hi. rewrite Hlen in Hi.
    destruct (Hev i e He) as [(si & Hsi & <-) _].
    destruct (verdict_at_None_inv s0 i si Hsi (Hnone i Hi)) as (Hnot & _).
    apply not_at_goal in Hnot. by rewrite (after_maze s0 i si Hsi) in Hnot.
  - intros path exit_at ->.
    apply verdict_at_Solved_inv in Hv as (s' & Hs' & Hpath' & -> & Hgoal).
    assert (s' = s) as -> by congruence. split; [done|].
    change (goal (maze s0)) with (goal m) in Hgoal.
    rewrite Hpath', Hpr. rewrite last_lookup.
    destruct (events !! pred (length events)) as [e|] eqn:He.
    + pose proof (lookup_lt_Some _ _ _ He) as Hi.
      destruct (Hev _ e He) as [_ Hnext].
      replace (S (pred (length events))) with n in Hnext by lia.
      apply Hlast in Hnext. rewrite <- Hgoal.
      by apply (f_equal pose_position) in Hnext.
    + apply lookup_ge_None in He.
      destruct events; [|simpl in He; lia]. simpl in Hlen. subst n.
      injection Hs as <-. done.
  - intros path ->.
    apply verdict_at_Unsolvable_inv in Hv as (s' & _ & Hpath' & _ & Hin).
    apply elem_of_visited in Hin as (i & Hi & _).
    simpl in Hpath. rewrite Hpath, Hpr. destruct events; [simpl in Hlen; lia|done].
Qed.

Lemma trace_is_walk_witness :
  (mkPoint2D 2 2, North).1
  = (mkPoint2D 1 2, South).1 +p EOrientation.value (mkPoint2D 1 2, South).2.
Proof.
  destruct (trace_is_walk Demo.walled_in_maze (mkPlayer (mkPoint2D 1 2) North) 3
              (Unsolvable [(mkPoint2D 1 2, South); (mkPoint2D 2 2, North)]))
    as (_ & H & _); [vm_compute; reflexivity|discriminate|].
  exact (H 0%nat _ _ eq_refl eq_refl).
Defined.

(** X11.  A trial that ends prints no line twice, with one exception:
    the last line of an unsolvable trial may be a line printed before.
    A solved trial and one that ends on a lookup that raises print
    pairwise distinct lines.  The last line of an unsolvable trial leads
    to the pose the player started with, or is a line printed before. *)
Theorem lines_repeat_only_at_the_end
  (m : Maze) (p : Player) (fuel : nat) (o : Outcome) :
  MazeManager.process_players_trial fuel (new_manager m p) = o →
  o ≠ OutOfFuel →
  (∀ i j e, (i < j)%nat →
     path_of o !! i = Some e → path_of o !! j = Some e →
     o = Unsolvable (path_of o) ∧ S j = length (path_of o))
  ∧ (∀ path exit_at, o = Solved path exit_at → NoDup path)
  ∧ (∀ path, o = Raised path → NoDup path)
  ∧ (∀ path, o = Unsolvable path →
       ∃ e, last path = Some e
            ∧ (pose_after e = Player.to_Pose p
               ∨ ∃ i, (S i < length path)%nat ∧ path !! i = Some e)).
Proof.
  intros Hrun Hended. set (s0 := new_manager m p) in *.
  destruct (run_stops s0 fuel o Hrun Hended)
    as (n & s & _ & Hv & Hnone & Hs & Hpath).
  destruct (trace_poses s0 n s Hs) as (events & Hpr & Hlen & Hev).
  simpl in Hpr. rewrite Hpr in Hpath. clear Hrun.
  assert (pose_at s0 n = Some (Player.to_Pose (player s))) as Hlast.
  { unfold pose_at. by rewrite Hs. }
  assert (∀ i j e, (i < j)%nat →
            path_of o !! i = Some e → path_of o !! j = Some e →
            o = Unsolvable (path_of o) ∧ S j = length (path_of o)) as Htwice.
  { rewrite Hpath. intros i j e Hij Hi Hj.
    pose proof (lookup_lt_Some _ _ _ Hj) as Hjn. rewrite Hlen in Hjn.
    destruct (Hev i e Hi) as [_ Hpi]. destruct (Hev j e Hj) as [_ Hpj].
    destruct (decide (S j = n)) as [Hend|Hmid].
    2:{ by destruct (poses_distinct s0 n (S i) (S j) (pose_after e) Hnone);
          [lia|lia|..]. }
    rewrite Hend, Hlast in Hpj.
    assert (pose_after e = Player.to_Pose (player s)) as Hpose by congruence.
    split; [|lia]. rewrite Hpose in Hpi.
    unfold verdict_at in Hv. rewrite Hs in Hv.
    destruct (MazeManager.is_player_located_at_goal s) eqn:Hgoal.
    - exfalso. unfold pose_at in Hpi.
      destruct (after s0 (S i)) as [si|] eqn:Hsi; [|done].
      assert (Player.to_Pose (player si) = Player.to_Pose (player s))
        as Hsame by (by apply (inj Some)).
      destruct (verdict_at_None_inv s0 (S i) si Hsi) as (Hnot & _);
        [apply Hnone; lia|].
      unfold MazeManager.is_player_located_at_goal, Player.is_located_at
        in Hgoal, Hnot.
      rewrite (after_maze s0 n s Hs) in Hgoal.
      rewrite (after_maze s0 (S i) si Hsi) in Hnot.
      apply (f_equal pose_position) in Hsame. simpl in Hsame.
      rewrite Hsame in Hnot. congruence.
    - destruct (decide (Player.to_Pose (player s) ∈ visited s0 n))
        as [_|Hnew].
      + injection Hv as <-. simpl. by rewrite Hpr.
      + destruct Hnew. apply elem_of_visited. exists (S i).
        split; [lia|done]. }
  assert (∀ path, (∀ path', o ≠ Unsolvable path') → path_of o = path →
            NoDup path) as Hnodup.
  { intros path Hnot <-. apply NoDup_alt. intros i j e Hi Hj.
    destruct (decide (i = j)) as [|Hne]; [done|]. exfalso.
    destruct (decide (i < j)%nat).
    - destruct (Htwice i j e) as [Ho _]; [lia|done..|]. by apply Hnot in Ho.
    - destruct (Htwice j i e) as [Ho _]; [lia|done..|]. by apply Hnot in Ho. }
  split; [done|]. split; [|split].
  - intros path exit_at ->. by apply Hnodup.
  - intros path ->. by apply Hnodup.
  - intros path ->. simpl in Hpath. subst path.
    apply verdict_at_Unsolvable_inv in Hv as (s' & Hs' & _ & _ & Hin).
    assert (s' = s) as -> by congruence.
    apply elem_of_visited in Hin as (k & Hk & Hpk).
    destruct (lookup_lt_is_Some_2 events (pred n)) as [e He]; [lia|].
    exists e. split; [by rewrite last_lookup, Hlen|].
    destruct (Hev _ e He) as [_ Hpe].
    replace (S (pred n)) with n in Hpe by lia.
    rewrite Hlast in Hpe.
    assert (Player.to_Pose (player s) = pose_after e) as Hse by congruence.
    rewrite <- Hse.
    destruct k as [|i].
    + left. unfold pose_at in Hpk. simpl in Hpk. congruence.
    + right. exists i. split; [lia|].
      destruct (lookup_lt_is_Some_2 events i) as [ei Hei]; [lia|].
      destruct (Hev _ ei Hei) as [_ Hpi]. rewrite Hpi in Hpk.
      assert (pose_after ei = pose_after e) as Heq by congruence.
      by apply pose_after_inj in Heq as ->.
Qed.

Lemma lines_repeat_only_at_the_end_witness :
  ∃ e, last [(mkPoint2D 1 2, South); (mkPoint2D 2 2, North)] = Some e
       ∧ (pose_after e = Player.to_Pose (mkPlayer (mkPoint2D 1 2) North)
          ∨ ∃ i, (S i < 2)%nat
                 ∧ [(mkPoint2D 1 2, South); (mkPoint2D 2 2, North)] !! i
                   = Some e).
Proof.
  destruct (lines_repeat_only_at_the_end Demo.walled_in_maze
              (mkPlayer (mkPoint2D 1 2) North) 3
              (Unsolvable [(mkPoint2D 1 2, South); (mkPoint2D 2 2, North)]))
    as (_ & _ & _ & H); [vm_compute; reflexivity|discriminate|].
  exact (H _ eq_refl).
Defined.

(** ** The cell behind the player *)

Lemma _player_can_go_maze s s' pos :
  maze s' = maze s →
  MazeManager._player_can_go s' pos = MazeManager._player_can_go s pos.
Proof. unfold MazeManager._player_can_go. by intros ->. Qed.

(** X12.  [player_can_go_backward], which the loop never calls, asks
    about the cell one step against the orientation.  After any
    transition of the loop that is the cell the player has just left:
    the answer is [True] when that cell is not a wall, [False] when it
    is one.  Along the trajectory of a player that starts on a cell that
    is not a wall with a cell that is not a wall next to it, the answer
    is [True] after every transition. *)
Theorem backward_is_the_cell_left (s s' : MazeManager) :
  MazeManager.choose_and_step s = Some s' →
  MazeManager.player_can_go_backward s'
  = MazeManager._player_can_go s (position (player s))
  ∧ (open_at (maze s) (position (player s)) →
     MazeManager.player_can_go_backward s' = Some true)
  ∧ (floor_at (maze s) (position (player s)) = Some Wall →
     MazeManager.player_can_go_backward s' = Some false)
  ∧ (∀ s0 n,
       open_at (maze s0) (position (player s0)) →
       (∃ o, open_at (maze s0) (prospect s0 o)) →
       after s0 n = Some s →
       MazeManager.player_can_go_backward s' = Some true).
Proof.
  intros Hstep.
  destruct (choose_and_step_lands s s' Hstep) as (Hpos & _).
  assert (MazeManager.player_can_go_backward s'
          = MazeManager._player_can_go s (position (player s))) as Hback.
  { unfold MazeManager.player_can_go_backward. simpl.
    rewrite Hpos, step_back.
    apply _player_can_go_maze, (choose_and_step_maze s s' Hstep). }
  assert (open_at (maze s) (position (player s)) →
          MazeManager.player_can_go_backward s' = Some true) as Hopen.
  { intros (cell & Hcell & Hfree).
    rewrite Hback, _player_can_go_floor_at, Hcell. simpl.
    by rewrite bool_decide_eq_true_2. }
  split; [done|]. split; [done|]. split.
  - intros Hwall. by rewrite Hback, _player_can_go_floor_at, Hwall.
  - intros s0 n Hhere Hnext Hs. apply Hopen.
    destruct (trajectory_open s0 n s Hhere Hnext Hs) as [Hs_open _].
    by rewrite (after_maze s0 n s Hs).
Qed.

Lemma backward_is_the_cell_left_witness :
  MazeManager.player_can_go_backward
    (mkMazeManager Demo.maze3_maze (mkPlayer (mkPoint2D 2 2) North)
       [(mkPoint2D 3 2, North)])
  = Some true.
Proof.
  destruct (backward_is_the_cell_left
              (new_manager Demo.maze3_maze (mkPlayer (mkPoint2D 3 2) North))
              (mkMazeManager Demo.maze3_maze (mkPlayer (mkPoint2D 2 2) North)
                 [(mkPoint2D 3 2, North)]))
    as (_ & H & _); [vm_compute; reflexivity|].
  apply H. exists Start. split; [vm_compute; reflexivity|discriminate].
Defined.

(** ** Lookups that wrap around, and lookups that raise *)

Lemma index_shift {A} (l : list A) i :
  - Z.of_nat (length l) ≤ i < 0 →
  Py.index l i = Py.index l (i + Z.of_nat (length l)).
Proof.
  intros. rewrite index_neg, index_nonneg by lia. by rewrite Z.add_comm.
Qed.

Lemma index_None {A} (l : list A) i :
  Py.index l i = None
  ↔ ¬ (- Z.of_nat (length l) ≤ i < Z.of_nat (length l)).
Proof.
  destruct (Py.index l i) as [a|] eqn:Hi.
  - apply index_Some in Hi as [? _]. split; [done|]. by intros [].
  - split; [|done]. intros _ Hrange.
    destruct (decide (0 ≤ i)).
    + rewrite index_nonneg in Hi by done. apply lookup_ge_None in Hi. lia.
    + rewrite index_neg in Hi by lia. apply lookup_ge_None in Hi. lia.
Qed.

(** X13.  The lookup of [_player_can_go] on negative coordinates.  A row
    coordinate in [-R, 0) is answered from the row [R] further down, a
    column coordinate in [-len, 0) from the column [len] further right,
    with [R] the number of rows and [len] the length of the row read.
    The lookup raises exactly when the row coordinate is outside
    [-R, R) or the column coordinate is outside [-len, len).  The test
    for the goal compares coordinates: a player [R] rows above the goal
    reads the cell of the goal, and is not at the goal. *)
Theorem lookups_wrap_around (self : MazeManager) (pos : Point2D) :
  let rows := floor (maze self) in
  let R := Z.of_nat (length rows) in
  (- R ≤ x pos < 0 →
   MazeManager._player_can_go self pos
   = MazeManager._player_can_go self (mkPoint2D (x pos + R) (y pos)))
  ∧ (∀ row, Py.index rows (x pos) = Some row →
       - Z.of_nat (length row) ≤ y pos < 0 →
       MazeManager._player_can_go self pos
       = MazeManager._player_can_go self
           (mkPoint2D (x pos) (y pos + Z.of_nat (length row))))
  ∧ (MazeManager._player_can_go self pos = None
     ↔ ¬ (- R ≤ x pos < R)
       ∨ ∃ row, Py.index rows (x pos) = Some row
                ∧ ¬ (- Z.of_nat (length row) ≤ y pos
                     < Z.of_nat (length row)))
  ∧ (0 ≤ x (goal (maze self)) < R →
     position (player self)
     = mkPoint2D (x (goal (maze self)) - R) (y (goal (maze self))) →
     floor_at (maze self) (position (player self))
     = floor_at (maze self) (goal (maze self))
     ∧ MazeManager.is_player_located_at_goal self = false).
Proof.
  intros rows R. unfold MazeManager._player_can_go. simpl.
  fold rows. split; [|split; [|split]].
  - intros Hx. by rewrite (index_shift rows (x pos)).
  - intros row -> Hy. simpl. by rewrite (index_shift row (y pos)).
  - destruct (Py.index rows (x pos)) as [row|] eqn:Hrow; simpl.
    + pose proof (proj1 (proj1 (index_Some _ _ _) Hrow)) as Hx.
      destruct (Py.index row (y pos)) as [cell|] eqn:Hcell; simpl.
      * pose proof (proj1 (proj1 (index_Some _ _ _) Hcell)) as Hy.
        split; [done|].
        intros [?|(row' & [= <-] & ?)]; done.
      * split; [|done]. intros _. right. exists row. split; [done|].
        by apply index_None.
    + split; [|done]. intros _. left. by apply index_None.
  - intros Hx Hpos. split.
    + unfold floor_at. rewrite Hpos. simpl. fold rows.
      rewrite (index_shift rows) by (fold R; lia). fold R.
      by replace (x (goal (maze self)) - R + R) with (x (goal (maze self)))
        by lia.
    + apply bool_decide_eq_false. rewrite Hpos.
      destruct (goal (maze self)) as [gx gy]. simpl in *. intros [= ?]. lia.
Qed.

Local Ltac settle_raise :=
  split;
  [ first [ discriminate
          | intros _; first [ by left | by right; left | by right; right ] ]
  | first [ done | by intros [?|[[? ?]|(? & ? & ?)]] ] ].

(** X14.  An iteration of the loop raises exactly when a lookup it makes
    is out of range: the cell to the right; or, with a wall to the
    right, the cell ahead; or, with walls to the right and ahead, the
    cell to the left.  A cell that cannot be read is not looked at when
    a candidate before it is free, and the cell behind is never read.  A
    trial that ends on such a lookup had the player off the goal, in a
    pose not seen before, after as many transitions as lines printed. *)
Theorem iteration_raises_iff (self : MazeManager) :
  let here := orientation (player self) in
  let right := EOrientation.turn_to_the_right here in
  let left := EOrientation.turn_to_the_left here in
  let probe o := floor_at (maze self) (prospect self o) in
  (MazeManager.choose_and_step self = None
   ↔ probe right = None
     ∨ (probe right = Some Wall ∧ probe here = None)
     ∨ (probe right = Some Wall ∧ probe here = Some Wall
        ∧ probe left = None))
  ∧ (∀ fuel path,
       MazeManager.process_players_trial fuel self = Raised path →
       ∃ n s, after self n = Some s
              ∧ path = printed s
              ∧ length (printed s) = (length (printed self) + n)%nat
              ∧ MazeManager.choose_and_step s = None
              ∧ position (player s) ≠ goal (maze self)
              ∧ Player.to_Pose (player s) ∉ visited self n).
Proof.
  intros here right left probe. split.
  - unfold MazeManager.choose_and_step, MazeManager.player_can_go_right,
      MazeManager.player_can_go_forward, MazeManager.player_can_go_left.
    simpl. rewrite !_player_can_go_floor_at.
    unfold probe, prospect, right, left, here.
    destruct (floor_at _ (_ +p EOrientation.value
                            (EOrientation.turn_to_the_right _)))
      as [[]|]; simpl; try settle_raise.
    destruct (floor_at _ (_ +p EOrientation.value (orientation _)))
      as [[]|]; simpl; try settle_raise.
    destruct (floor_at _ (_ +p EOrientation.value
                            (EOrientation.turn_to_the_left _)))
      as [[]|]; simpl; settle_raise.
  - intros fuel path Hrun.
    destruct (run_stops self fuel _ Hrun) as (n & s & _ & Hv & _ & Hs & _);
      [done|].
    apply verdict_at_Raised_inv in Hv as (s' & Hs' & -> & Hgoal & Hnew & Hstep).
    assert (s' = s) as -> by congruence.
    destruct (after_printed self n s Hs) as (events & Hpr & Hlen & _).
    exists n, s. split; [done|]. split; [done|].
    split; [by rewrite Hpr, length_app, Hlen|]. split; [done|].
    split; [|done].
    apply not_at_goal in Hgoal. by rewrite (after_maze self n s Hs) in Hgoal.
Qed.

(** ** The printed lines *)

Lemma lit_String a s : Py.lit (String a s) = Py.of_ascii a :: Py.lit s.
Proof. done. Qed.

Lemma lit_inj s s' : Py.lit s = Py.lit s' → s = s'.
Proof.
  revert s'. induction s as [|a s IH]; intros [|a' s']; try done.
  rewrite !lit_String. intros [= Ha Hs]. f_equal; [|by apply IH].
  unfold Py.of_ascii in Ha.
  by rewrite <- (ascii_N_embedding a), Ha, ascii_N_embedding.
Qed.

Lemma to_int_proper n :
  Z.to_int n ≠ Decimal.Pos Decimal.Nil ∧ Z.to_int n ≠ Decimal.Neg Decimal.Nil.
Proof.
  destruct n as [|p|p]; simpl; [done|..]; split; try done;
    intros [= H]; by apply Unsigned.to_uint_nonnil in H.
Qed.

(** Different integers have different decimal texts. *)
Lemma str_int_inj n n' : Py.str_int n = Py.str_int n' → n = n'.
Proof.
  intros H%lit_inj.
  destruct (to_int_proper n) as [? ?], (to_int_proper n') as [? ?].
  apply (f_equal NilZero.int_of_string) in H.
  rewrite !NilZero.isi in H by done. injection H as H.
  by rewrite <- (DecimalZ.of_to n), H, DecimalZ.of_to.
Qed.

Lemma uint_digits d :
  Forall (λ c, (48 ≤ c ≤ 57)%N) (Py.lit (NilEmpty.string_of_uint d)).
Proof.
  induction d; simpl; [constructor|..];
    rewrite lit_String; (constructor; [by vm_compute|done]).
Qed.

(** The decimal text of an integer is made of digits and the minus
    sign. *)
Lemma str_int_chars n :
  Forall (λ c, c = 45%N ∨ (48 ≤ c ≤ 57)%N) (Py.str_int n).
Proof.
  assert (∀ d, Forall (λ c, c = 45%N ∨ (48 ≤ c ≤ 57)%N)
                 (Py.lit (NilZero.string_of_uint d))) as Huint.
  { intros d.
    assert (Forall (λ c, (48 ≤ c ≤ 57)%N)
              (Py.lit (NilZero.string_of_uint d))) as Hd.
    { destruct d; [by repeat constructor|..];
        match goal with |- context [NilZero.string_of_uint ?u] =>
          apply (uint_digits u) end. }
    eapply Forall_impl; [exact Hd|]. intros c ?. by right. }
  unfold Py.str_int. destruct (Z.to_int n) as [d|d]; simpl; [done|].
  rewrite lit_String. constructor; [by left|done].
Qed.

Lemma str_int_free n c :
  c ≠ 45%N → ¬ (48 ≤ c ≤ 57)%N → c ∉ Py.str_int n.
Proof.
  intros Hminus Hdigit Hin.
  pose proof (str_int_chars n) as Hall. rewrite Forall_forall in Hall.
  by destruct (Hall c Hin).
Qed.

(** The text of a position, before any text [rest]: an opening
    parenthesis, a body without closing parenthesis, and the closing
    parenthesis. *)
Lemma point_str_split pos rest :
  Point2D.__str__ pos ++ rest
  = 40%N :: (Py.str_int (x pos) ++ 44%N :: 32%N :: Py.str_int (y pos))
    ++ 41%N :: rest
  ∧ 41%N ∉ Py.str_int (x pos) ++ 44%N :: 32%N :: Py.str_int (y pos).
Proof.
  split.
  - unfold Point2D.__str__.
    change (Py.lit "(") with [40%N]. change (Py.lit ", ") with [44%N; 32%N].
    change (Py.lit ")") with [41%N]. by rewrite <- !app_assoc.
  - rewrite not_elem_of_app, !not_elem_of_cons.
    split; [apply str_int_free; [done|lia]|].
    split; [done|]. split; [done|]. apply str_int_free; [done|lia].
Qed.

Lemma point_str_rest_inj pos pos' rest rest' :
  Point2D.__str__ pos ++ rest = Point2D.__str__ pos' ++ rest' →
  pos = pos' ∧ rest = rest'.
Proof.
  destruct (point_str_split pos rest) as [-> Hbody].
  destruct (point_str_split pos' rest') as [-> Hbody'].
  intros [= H].
  apply not_elem_of_app_cons_inv_l in H as (H & _ & Hrest); [|done..].
  split; [|done].
  apply not_elem_of_app_cons_inv_l in H as (Hx & _ & [= Hy]);
    [|apply str_int_free; [done|lia]..].
  apply str_int_inj in Hx, Hy. destruct pos, pos'. simpl in *. congruence.
Qed.

Lemma point_str_inj pos pos' :
  Point2D.__str__ pos = Point2D.__str__ pos' → pos = pos'.
Proof.
  intros H. apply (point_str_rest_inj pos pos' [] []). by rewrite !app_nil_r.
Qed.

Lemma orientation_str_inj o o' :
  EOrientation.__str__ o = EOrientation.__str__ o' → o = o'.
Proof. by destruct o, o'. Qed.

Lemma step_line_inj e e' : step_line e = step_line e' → e = e'.
Proof.
  unfold step_line. intros H%app_inv_head.
  apply point_str_rest_inj in H as [Hpos Hrest].
  apply app_inv_head, orientation_str_inj in Hrest.
  destruct e, e'. simpl in *. congruence.
Qed.

(** X15.  The printed texts tell positions, orientations and lines
    apart.  [Point2D.__str__] and [EOrientation.__str__] are injective,
    negative coordinates included; so are the line of a transition (in
    its position and orientation together), the line of the exit and the
    line of the start; and the four kinds of lines are pairwise
    different. *)
Theorem printed_lines_identify_poses :
  (∀ pos pos', Point2D.__str__ pos = Point2D.__str__ pos' → pos = pos')
  ∧ (∀ o o', EOrientation.__str__ o = EOrientation.__str__ o' → o = o')
  ∧ (∀ e e', step_line e = step_line e' → e = e')
  ∧ (∀ pos pos', exit_line pos = exit_line pos' → pos = pos')
  ∧ (∀ pos pos',
       current_position_line pos = current_position_line pos' → pos = pos')
  ∧ (∀ e pos pos',
       step_line e ≠ exit_line pos
       ∧ step_line e ≠ no_solution_line
       ∧ step_line e ≠ current_position_line pos'
       ∧ exit_line pos ≠ no_solution_line
       ∧ exit_line pos ≠ current_position_line pos'
       ∧ current_position_line pos' ≠ no_solution_line)
  ∧ Point2D.__str__ (mkPoint2D (-1) 12) = Py.lit "(-1, 12)"
  ∧ step_line (mkPoint2D 3 2, North) = Py.lit "At (3, 2) facing north".
Proof.
  split; [exact point_str_inj|]. split; [exact orientation_str_inj|].
  split; [exact step_line_inj|]. split; [|split; [|split]].
  - intros pos pos' H%app_inv_head. by apply point_str_inj.
  - intros pos pos' H%app_inv_head. by apply point_str_inj.
  - intros e pos pos'.
    repeat split; intros H; apply (f_equal head) in H; discriminate H.
  - split; vm_compute; reflexivity.
Qed.

(** Lists of lines that start with [c], each followed by lines that do
    not, are equal part by part. *)
Lemma app_by_head (c : N) (l l' t t' : list Py.str) :
  Forall (λ line, head line = Some c) l →
  Forall (λ line, head line = Some c) l' →
  Forall (λ line, head line ≠ Some c) t →
  Forall (λ line, head line ≠ Some c) t' →
  l ++ t = l' ++ t' → l = l' ∧ t = t'.
Proof.
  revert l'. induction l as [|a l IH]; intros [|a' l'] Hl Hl' Ht Ht' H;
    simpl in H.
  - done.
  - subst t. inversion_clear Hl'. inversion_clear Ht. done.
  - subst t'. inversion_clear Hl. inversion_clear Ht'. done.
  - injection H as -> H. inversion_clear Hl. inversion_clear Hl'.
    destruct (IH l') as [-> ->]; done.
Qed.

Lemma cons_inv {A} (a a' : A) (l l' : list A) :
  a :: l = a' :: l' → a = a' ∧ l = l'.
Proof. by intros [= -> ->]. Qed.

Lemma step_lines_inj (path path' : list Event) :
  step_line <$> path = step_line <$> path' → path = path'.
Proof.
  revert path'. induction path as [|e path IH]; intros [|e' path']; try done.
  rewrite !fmap_cons. intros [He Hpath]%cons_inv.
  apply step_line_inj in He as ->. f_equal. by apply IH.
Qed.

(** X16.  The standard output identifies the trial.  When two trials
    write the same lines, their players started from the same position
    and made the same transitions; and when one of them ends by a report
    (solved or unsolvable), the other ends the same way, at the same
    exit. *)
Theorem stdout_identifies_trial (start_at start_at' : Point2D)
  (o o' : Outcome) :
  stdout start_at o = stdout start_at' o' →
  start_at = start_at'
  ∧ path_of o = path_of o'
  ∧ ((∃ path exit_at, o = Solved path exit_at) ∨ (∃ path, o = Unsolvable path)
     → o' = o).
Proof.
  unfold stdout. intros [Hstart Hlines]%cons_inv.
  apply app_inv_head, point_str_inj in Hstart.
  assert (∀ pos, exit_line pos ≠ no_solution_line) as Hkinds.
  { intros pos H. apply (f_equal head) in H. discriminate H. }
  apply (app_by_head 65%N) in Hlines as [Hpath%step_lines_inj Hend].
  - split; [done|]. split; [done|].
    intros [(path & exit_at & ->)|(path & ->)]; cbn [path_of] in Hpath.
    + destruct o' as [path' exit_at'|path'|path'|];
        cbn [path_of] in Hpath; [|exfalso..].
      * apply cons_inv in Hend as [Hexit%app_inv_head%point_str_inj _].
        by subst.
      * apply cons_inv in Hend as [Hexit _]. by apply Hkinds in Hexit.
      * discriminate Hend.
      * discriminate Hend.
    + destruct o' as [path' exit_at'|path'|path'|];
        cbn [path_of] in Hpath; [exfalso| |exfalso..].
      * apply cons_inv in Hend as [Hexit _]. symmetry in Hexit.
        by apply Hkinds in Hexit.
      * by subst.
      * discriminate Hend.
      * discriminate Hend.
  - apply Forall_fmap, Forall_forall. by intros e _.
  - apply Forall_fmap, Forall_forall. by intros e _.
  - destruct o; by repeat constructor.
  - destruct o'; by repeat constructor.
Qed.

Lemma stdout_identifies_trial_witness :
  path_of (MazeManager.process_players_trial 20
             (new_manager Demo.maze3_maze (mkPlayer (mkPoint2D 3 2) North)))
  = path_of (MazeManager.process_players_trial 10
               (new_manager Demo.maze3_maze (mkPlayer (mkPoint2D 3 2) North)))
  ∧ length (path_of (MazeManager.process_players_trial 10
                       (new_manager Demo.maze3_maze
                          (mkPlayer (mkPoint2D 3 2) North)))) = 9%nat.
Proof.
  destruct (stdout_identifies_trial (mkPoint2D 3 2) (mkPoint2D 3 2)
              (MazeManager.process_players_trial 20
                 (new_manager Demo.maze3_maze (mkPlayer (mkPoint2D 3 2) North)))
              (MazeManager.process_players_trial 10
                 (new_manager Demo.maze3_maze (mkPlayer (mkPoint2D 3 2) North))))
    as (_ & H & _); [vm_compute; reflexivity|].
  split; [exact H|vm_compute; reflexivity].
Defined.

(** ** The script *)

(** X17.  The script on a text of a walled grid.  When the text parses
    into a grid of [R] rows of [C] columns with walls all along its
    border, and one of the four cells around the start is not a wall,
    the script ends by a report after [n] transitions, with
    [1 ≤ n ≤ 4 R C]: it prints the lines of the text joined by the line
    separator, the line of the start, one line per transition, and then
    the exit at the goal of the maze or the sentence that there is no
    solution. *)
Theorem script_reports (text linesep : Py.str) (m : Maze) (R C : nat) :
  Maze.parse text = inl m →
  enclosed m R C →
  (∃ o, open_at m (start m +p EOrientation.value o)) →
  ∃ n o,
    (1 ≤ n ≤ 4 * R * C)%nat
    ∧ length (path_of o) = n
    ∧ (o = Solved (path_of o) (goal m) ∨ o = Unsolvable (path_of o))
    ∧ ∀ fuel, (n < fuel)%nat →
        main linesep fuel text
        = inl (Py.join linesep (Py.splitlines text)
               :: current_position_line (start m)
               :: (step_line <$> path_of o)
               ++ [match o with
                   | Solved _ _ => exit_line (goal m)
                   | _ => no_solution_line
                   end],
               o).
Proof.
  intros Hparse Hwalls Hnext.
  destruct (parse_inl text m Hparse) as (Hfloors & Hstart & Hgoal).
  destruct (_find_xy_cell m Start _ Hstart) as (Hs & Hx & Hy & _).
  destruct (_find_xy_cell m Goal _ Hgoal) as (Hg & _).
  assert (start m ≠ goal m) as Hne by (intros Heq; congruence).
  pose proof Hwalls as (HR & HC & _).
  assert (in_grid R C (start m)) as Hgrid.
  { split; [lia|]. split; [done|]. unfold floor_at in Hs.
    rewrite index_nonneg in Hs by lia.
    destruct (floor m !! Z.to_nat (x (start m))) as [row|] eqn:Hrow; [|done].
    simpl in Hs. rewrite index_nonneg in Hs by done.
    apply lookup_lt_Some in Hs. rewrite Forall_forall in HC.
    rewrite (HC row) in Hs; [lia|]. by apply list_elem_of_lookup_2 in Hrow. }
  assert (open_at m (start m)) as Hopen by (by exists Start).
  set (p := mkPlayer (start m) North).
  assert (can_move m R C p) as Hmove.
  { split; [by apply (open_at_inside m R C Hwalls)|]. done. }
  destruct (trial_ends m p R C HR)
    as (n & o & Hrun & Hended & Hlen & _ & _ & _ & Hbound).
  { eapply Forall_impl; [exact HC|]. simpl. intros row ->. done. }
  destruct (run_stops _ _ o (Hrun (S n) (Nat.lt_succ_diag_r n)) Hended)
    as (k & s & _ & Hk & _).
  destruct (enclosed_verdict m R C Hwalls (new_manager m p) k o)
    as [Hverdict Hcells]; [done..|].
  exists n, o. split; [split; [|by apply Hbound]|].
  - destruct n as [|n]; [exfalso|lia].
    specialize (Hrun 1%nat (Nat.lt_succ_diag_r 0)).
    unfold MazeManager.process_players_trial in Hrun. simpl in Hrun.
    unfold MazeManager.is_player_located_at_goal, Player.is_located_at
      in Hrun. simpl in Hrun.
    rewrite bool_decide_eq_false_2 in Hrun by done.
    destruct (decide (_ ∈ ∅)) as [Hin|_]; [by apply elem_of_empty in Hin|].
    destruct (MazeManager.choose_and_step _); subst o;
      by destruct Hverdict.
  - split; [done|]. split; [done|]. intros fuel Hfuel.
    unfold main. rewrite Hparse. cbv zeta. fold p. rewrite (Hrun fuel Hfuel).
    apply floors_of_lines in Hfloors.
    assert (Maze.to_string linesep m = Py.join linesep (Py.splitlines text))
      as -> by (unfold Maze.to_string; by rewrite Hfloors).
    unfold stdout.
    destruct o as [path exit_at|path|path|];
      destruct Hverdict as [Ho|Ho]; try discriminate Ho; [|done].
    by assert (exit_at = goal m) as -> by congruence.
Qed.

Lemma script_reports_witness :
  ∃ n o,
    (1 ≤ n ≤ 4 * 6 * 5)%nat
    ∧ length (path_of o) = n
    ∧ (o = Solved (path_of o) (mkPoint2D 4 2) ∨ o = Unsolvable (path_of o))
    ∧ ∀ fuel, (n < fuel)%nat →
        main LF fuel Demo.maze3
        = inl (Py.join LF (Py.splitlines Demo.maze3)
               :: current_position_line (mkPoint2D 3 2)
               :: (step_line <$> path_of o)
               ++ [match o with
                   | Solved _ _ => exit_line (mkPoint2D 4 2)
                   | _ => no_solution_line
                   end],
               o).
Proof.
  apply (script_reports Demo.maze3 LF Demo.maze3_maze 6 5).
  - vm_compute. reflexivity.
  - split; [reflexivity|]. split; [repeat constructor|].
    intros [px py] [Hx Hy] Hborder. simpl in Hx, Hy, Hborder.
    assert (px = 0 ∨ px = 1 ∨ px = 2 ∨ px = 3 ∨ px = 4 ∨ px = 5) as Hpx
      by lia.
    assert (py = 0 ∨ py = 1 ∨ py = 2 ∨ py = 3 ∨ py = 4) as Hpy by lia.
    destruct Hpx as [->|[->|[->|[->|[->| ->]]]]],
        Hpy as [->|[->|[->|[->| ->]]]];
      first [reflexivity | exfalso; lia].
  - exists North. by exists Normal.
Defined.
